(** * Music_App: a shallow embedding of main.py and the properties of its
      data model, persistence and undo engine.

    Python [str] values are modelled by [string]; a character is a code
    point below 256, which is the range on which [str.lower], [str.strip]
    and the class [\d] of [re] act character by character. *)

From Stdlib Require Import Ascii String List Bool Arith Lia.
From stdpp Require Import gmap strings.
Import ListNotations.

(** ** Python strings *)

Module Str.

Definition code (c : ascii) : nat := nat_of_ascii c.

Definition between (lo hi : nat) (c : ascii) : bool :=
  (lo <=? code c) && (code c <=? hi).

(** [c.isspace()]: TAB..CR, FS..US, space, NEL and NBSP. *)
Definition isspace (c : ascii) : bool :=
  between 9 13 c || between 28 32 c || (code c =? 133) || (code c =? 160).

(** [c.isdigit()] as [\d] sees it: the decimal digits. *)
Definition isdigit (c : ascii) : bool := between 48 57 c.

(** [c.lower()]: A-Z, and the accented capitals U+00C0..U+00DE but for the
    multiplication sign U+00D7, move 32 code points up. *)
Definition lower_char (c : ascii) : ascii :=
  if between 65 90 c || (between 192 222 c && negb (code c =? 215))
  then ascii_of_nat (code c + 32)
  else c.

Fixpoint lower (s : string) : string :=
  match s with
  | EmptyString => EmptyString
  | String c s' => String (lower_char c) (lower s')
  end.

(** [bool(s)]: a string is true when it is not empty. *)
Definition truthy (s : string) : bool :=
  match s with
  | EmptyString => false
  | String _ _ => true
  end.

Fixpoint lstrip (s : string) : string :=
  match s with
  | EmptyString => EmptyString
  | String c s' => if isspace c then lstrip s' else s
  end.

Fixpoint rstrip (s : string) : string :=
  match s with
  | EmptyString => EmptyString
  | String c s' =>
      match rstrip s' with
      | EmptyString => if isspace c then EmptyString else String c EmptyString
      | r => String c r
      end
  end.

(** [s.strip()] *)
Definition strip (s : string) : string := rstrip (lstrip s).

(** [s.split(sep)] for a one-character separator: never an empty list. *)
Fixpoint split (sep : ascii) (s : string) : list string :=
  match s with
  | EmptyString => [EmptyString]
  | String c s' =>
      if Ascii.eqb c sep then EmptyString :: split sep s'
      else match split sep s' with
           | h :: t => String c h :: t
           | [] => [String c EmptyString]
           end
  end.

(** [sep.join(l)] *)
Fixpoint join (sep : string) (l : list string) : string :=
  match l with
  | [] => EmptyString
  | [x] => x
  | x :: l' => x +:+ sep +:+ join sep l'
  end.

(** [s.replace(a, b)] for one-character [a] and [b]. *)
Fixpoint replace (a b : ascii) (s : string) : string :=
  match s with
  | EmptyString => EmptyString
  | String c s' => String (if Ascii.eqb c a then b else c) (replace a b s')
  end.

(** [needle in hay] *)
Fixpoint contains (needle hay : string) : bool :=
  String.prefix needle hay ||
  match hay with
  | EmptyString => false
  | String _ hay' => contains needle hay'
  end.

(** [a.lower() == b.lower()], the identity used by every lookup. *)
Definition eq_nocase (a b : string) : bool := String.eqb (lower a) (lower b).

Fixpoint all (p : ascii -> bool) (s : string) : bool :=
  match s with
  | EmptyString => true
  | String c s' => p c && all p s'
  end.

End Str.

(** ** The fragment of [re] the program uses *)

Module re.

Inductive pattern : Type :=
| Bol                              (* ^ *)
| Eol                              (* $ *)
| Class (p : ascii -> bool)        (* a character class: \d, [0-5], a literal *)
| Plus (p : ascii -> bool)         (* one or more of a character class, greedy *)
| Cat (r1 r2 : pattern).

(** [$] without MULTILINE holds at the end of the string and just before a
    newline that ends the string. *)
Definition at_eol (s : string) : bool :=
  match s with
  | EmptyString => true
  | String c EmptyString => Ascii.eqb c "010"%char
  | _ => false
  end.

(** Zero or more characters of [p], longest first, then the continuation. *)
Fixpoint many (p : ascii -> bool) (pos : nat) (s : string)
    (k : nat -> string -> bool) : bool :=
  match s with
  | String c s' => (p c && many p (S pos) s' k) || k pos s
  | EmptyString => k pos s
  end.

(** Backtracking matcher: [pos] is the offset of [s] in the subject. *)
Fixpoint run (r : pattern) (pos : nat) (s : string)
    (k : nat -> string -> bool) : bool :=
  match r with
  | Bol => (pos =? 0) && k pos s
  | Eol => at_eol s && k pos s
  | Class p =>
      match s with
      | String c s' => p c && k (S pos) s'
      | EmptyString => false
      end
  | Plus p =>
      match s with
      | String c s' => p c && many p (S pos) s' k
      | EmptyString => false
      end
  | Cat r1 r2 => run r1 pos s (fun pos' s' => run r2 pos' s' k)
  end.

(** [re.match(r, s)] as a truth value: a match anchored at offset 0 that
    may end anywhere. *)
Definition match_ (r : pattern) (s : string) : bool :=
  run r 0 s (fun _ _ => true).

Definition lit (c : ascii) : pattern := Class (Ascii.eqb c).
Definition digit : pattern := Class Str.isdigit.

End re.

(** The newline character, as a string. *)
Definition nl : string := String "010"%char EmptyString.

(** [r'^\d+:[0-5]\d$'], the pattern of [Song.__init__]. *)
Definition duration_pattern : re.pattern :=
  re.Cat re.Bol
    (re.Cat (re.Plus Str.isdigit)
       (re.Cat (re.lit ":"%char)
          (re.Cat (re.Class (Str.between 48 53))
             (re.Cat re.digit re.Eol)))).

(** [r'^\d+:\d{2}$'], the pattern of the prompt loop of [add_multiple_songs]. *)
Definition prompt_duration_pattern : re.pattern :=
  re.Cat re.Bol
    (re.Cat (re.Plus Str.isdigit)
       (re.Cat (re.lit ":"%char)
          (re.Cat re.digit (re.Cat re.digit re.Eol)))).


(** ** Exceptions and results *)

Inductive exn : Type :=
| ValueError (msg : string)
| KeyError (key : string)
| JSONDecodeError (msg : string)
| EOFError
| OutOfFuel.     (* not a Python exception: a loop of the model ran out of
                    fuel; [while_true_total] shows it is never raised *)

(** [str(e)] *)
Definition str_exn (e : exn) : string :=
  match e with
  | ValueError msg => msg
  | KeyError key => "'" +:+ key +:+ "'"
  | JSONDecodeError msg => msg
  | EOFError => "EOF when reading a line"
  | OutOfFuel => ""
  end.

Inductive res (A : Type) : Type :=
| Ok (a : A)
| Raise (e : exn).
Arguments Ok {A} a.
Arguments Raise {A} e.

#[global] Instance res_ret : MRet res := fun A a => Ok a.
#[global] Instance res_bind : MBind res := fun A B f r =>
  match r with
  | Ok a => f a
  | Raise e => Raise e
  end.

(** [d[key]] on a dict that holds [key] or not. *)
Definition subscript {A} (key : string) (v : option A) : res A :=
  match v with
  | Some a => Ok a
  | None => Raise (KeyError key)
  end.

(** [[f(x) for x in l]], the first exception ending the comprehension. *)
Fixpoint comprehension {A B} (f : A -> res B) (l : list A) : res (list B) :=
  match l with
  | [] => Ok []
  | x :: l' => y ← f x; ys ← comprehension f l'; Ok (y :: ys)
  end.

(** ** The dicts of the JSON document

    A document is what [json.load] returns on a file whose keys, where
    present, hold values of the JSON types [save_data] writes; a key the
    dict lacks is [None], and subscripting it raises [KeyError]. *)

Record song_dict : Type := {
  sd_name : option string;
  sd_artists : option (list string);
  sd_album : option string;
  sd_genre : option string;
  sd_duration : option string
}.

Record playlist_dict : Type := {
  pd_name : option string;
  pd_songs : option (list song_dict)
}.

Record data_dict : Type := {
  dd_songs : option (list song_dict);
  dd_playlists : option (list playlist_dict)
}.

(** ** class Song *)

Module Song.

Record t : Type := {
  name : string;
  artists : list string;
  album : string;
  genre : string;
  duration : string
}.

#[global] Instance eq_dec : EqDecision t.
Proof. solve_decision. Defined.

(** [Song.__init__] *)
Definition init (name_ artists_ album_ genre_ duration_ : string) : res t :=
  if negb (Str.truthy name_) then
    Raise (ValueError "Song name cannot be empty.")
  else if negb (re.match_ duration_pattern duration_) then
    Raise (ValueError ("Invalid duration format: " +:+ duration_ +:+
                       ". Expected format 'mm:ss' or 'hh:mm:ss'."))
  else
    Ok {| name := name_;
          artists := map Str.strip (Str.split ","%char artists_);
          album := album_;
          genre := genre_;
          duration := duration_ |}.

(** [Song.__str__] *)
Definition str (self : t) : string :=
  name self +:+ " by " +:+ Str.join ", " (artists self).

Definition to_dict (self : t) : song_dict :=
  {| sd_name := Some (name self);
     sd_artists := Some (artists self);
     sd_album := Some (album self);
     sd_genre := Some (genre self);
     sd_duration := Some (duration self) |}.

(** [Song.from_dict]: the arguments are evaluated left to right, then the
    constructor runs. *)
Definition from_dict (data : song_dict) : res t :=
  name_ ← subscript "name" (sd_name data);
  artists_ ← subscript "artists" (sd_artists data);
  album_ ← subscript "album" (sd_album data);
  genre_ ← subscript "genre" (sd_genre data);
  duration_ ← subscript "duration" (sd_duration data);
  init name_ (Str.join ", " artists_) album_ genre_ duration_.

End Song.

(** ** class Playlist *)

Module Playlist.

Record t : Type := {
  name : string;
  songs : list Song.t
}.

Definition init (name_ : string) : t := {| name := name_; songs := [] |}.

Definition add_song (self : t) (song : Song.t) : t :=
  {| name := name self; songs := songs self ++ [song] |}.

Definition remove_song (self : t) (song_name : string) : t :=
  {| name := name self;
     songs := List.filter
                (fun song => negb (Str.eq_nocase (Song.name song) song_name))
                (songs self) |}.

Definition str (self : t) : string := name self.

Definition to_dict (self : t) : playlist_dict :=
  {| pd_name := Some (name self);
     pd_songs := Some (map Song.to_dict (songs self)) |}.

(** The [for] loop of [Playlist.from_dict]. *)
Fixpoint add_all (playlist : t) (l : list song_dict) : res t :=
  match l with
  | [] => Ok playlist
  | song_data :: l' =>
      song ← Song.from_dict song_data;
      add_all (add_song playlist song) l'
  end.

Definition from_dict (data : playlist_dict) : res t :=
  name_ ← subscript "name" (pd_name data);
  songs_ ← subscript "songs" (pd_songs data);
  add_all (init name_) songs_.

End Playlist.

(** ** The process: the [MusicApp] object, the console and the files *)

Inductive file : Type :=
| Json (data : data_dict)            (* a text [json.load] parses to [data] *)
| Text (text : string) (err : string). (* any other text; [json.load] raises
                                          [JSONDecodeError(err)] on it *)

Record MusicApp : Type := {
  data_file : string;
  songs : list Song.t;
  playlists : list Playlist.t;
  undo_stack : list (string * Song.t)   (* the top is the last element *)
}.

Record world : Type := {
  self : MusicApp;
  stdin : list string;        (* the lines [input] has still to read *)
  stdout : list string;       (* what was written, oldest first *)
  fs : gmap string file
}.

(** A method: the state after it is kept also when it raises. *)
Definition M (A : Type) : Type := world -> res A * world.

#[global] Instance M_ret : MRet M := fun A a w => (Ok a, w).
#[global] Instance M_bind : MBind M := fun A B f m w =>
  match m w with
  | (Ok a, w') => f a w'
  | (Raise e, w') => (Raise e, w')
  end.

Definition raise {A} (e : exn) : M A := fun w => (Raise e, w).
Definition lift {A} (r : res A) : M A := fun w => (r, w).
Definition get_self : M MusicApp := fun w => (Ok (self w), w).
Definition get_fs : M (gmap string file) := fun w => (Ok (fs w), w).

Definition set_self (a : MusicApp) : M unit := fun w =>
  (Ok tt, {| self := a; stdin := stdin w; stdout := stdout w; fs := fs w |}).

Definition set_songs (l : list Song.t) : M unit :=
  a ← get_self;
  set_self {| data_file := data_file a; songs := l;
              playlists := playlists a; undo_stack := undo_stack a |}.

Definition set_playlists (l : list Playlist.t) : M unit :=
  a ← get_self;
  set_self {| data_file := data_file a; songs := songs a;
              playlists := l; undo_stack := undo_stack a |}.

Definition set_undo_stack (l : list (string * Song.t)) : M unit :=
  a ← get_self;
  set_self {| data_file := data_file a; songs := songs a;
              playlists := playlists a; undo_stack := l |}.

(** [with open(path, 'w') as f: f.write(...)] *)
Definition write_file (path : string) (c : file) : M unit := fun w =>
  (Ok tt, {| self := self w; stdin := stdin w; stdout := stdout w;
             fs := <[path := c]> (fs w) |}).

(** [print(s)] *)
Definition print (s : string) : M unit := fun w =>
  (Ok tt, {| self := self w; stdin := stdin w;
             stdout := stdout w ++ [s +:+ nl]; fs := fs w |}).

(** [input(prompt)]: the prompt is written, then a line is read;
    [EOFError] when there is none. *)
Definition input (prompt : string) : M string := fun w =>
  let out := stdout w ++ [prompt] in
  match stdin w with
  | [] => (Raise EOFError,
           {| self := self w; stdin := []; stdout := out; fs := fs w |})
  | line :: rest =>
      (Ok line, {| self := self w; stdin := rest; stdout := out; fs := fs w |})
  end.

(** [try: body except (json.JSONDecodeError, KeyError) as e: handler(e)] *)
Definition try_except_decode_key {A} (body : M A) (handler : exn -> M A) : M A :=
  fun w =>
    match body w with
    | (Raise (JSONDecodeError msg), w') => handler (JSONDecodeError msg) w'
    | (Raise (KeyError key), w') => handler (KeyError key) w'
    | r => r
    end.

(** [while True: body], where [body] answers [Some a] on [return a] or
    [break] and [None] to go round again.  Every loop of the program reads
    a line each time round, so one more round than there are lines left
    is enough. *)
Fixpoint loop {A} (fuel : nat) (body : M (option A)) : M A :=
  match fuel with
  | 0 => raise OutOfFuel
  | S n => r ← body; match r with
                     | Some a => mret a
                     | None => loop n body
                     end
  end.

Definition while_true {A} (body : M (option A)) : M A := fun w =>
  loop (S (length (stdin w))) body w.

(** [get_valid_input(prompt, allow_empty=False)] *)
Definition get_valid_input (prompt : string) (allow_empty : bool) : M string :=
  while_true (
    line ← input prompt;
    let user_input := Str.strip line in
    if Str.truthy user_input || allow_empty then mret (Some user_input)
    else print "Input cannot be empty. Please try again.";; mret None).

(** [confirm_action(prompt)] *)
Definition confirm_action (prompt : string) : M bool :=
  while_true (
    line ← input (prompt +:+ " (y/n): ");
    let confirmation := Str.lower line in
    if String.eqb confirmation "y" || String.eqb confirmation "n" then
      mret (Some (String.eqb confirmation "y"))
    else
      print "Invalid input. Please enter 'y' for yes or 'n' for no.";;
      mret None).

(** [list.pop()] on a list that is not empty. *)
Definition pop {A} (l : list A) : option (A * list A) :=
  match last l with
  | Some x => Some (x, removelast l)
  | None => None
  end.

(** [l.remove(x)]: the first element equal to [x] goes; [ValueError] when
    there is none.  A [Song] has no [__eq__], so Python compares objects;
    at the element a search by name has just found, that is also the first
    element equal to it as a value ([list_remove_found]). *)
Fixpoint list_remove {A} `{EqDecision A} (x : A) (l : list A) : res (list A) :=
  match l with
  | [] => Raise (ValueError "list.remove(x): x not in list")
  | y :: l' =>
      if decide (y = x) then Ok l'
      else l'' ← list_remove x l'; Ok (y :: l'')
  end.

(** [p.f()] on the object [next(p for p in l if test(p))] found: the list
    holds that object at its first match.  No [Playlist] is held twice in
    [self.playlists]: [create_playlist] and [from_dict] build a new one each
    time. *)
Fixpoint update_first {A} (test : A -> bool) (f : A -> A) (l : list A) : list A :=
  match l with
  | [] => []
  | x :: l' => if test x then f x :: l' else x :: update_first test f l'
  end.

(** [for x in l: body(x)] *)
Fixpoint for_each {A} (l : list A) (body : A -> M unit) : M unit :=
  match l with
  | [] => mret tt
  | x :: l' => body x;; for_each l' body
  end.

(** ** class MusicApp *)

(** [next((s for s in songs if s.name.lower() == song_name.lower()), None)] *)
Definition find_song (l : list Song.t) (song_name : string) : option Song.t :=
  List.find (fun s => Str.eq_nocase (Song.name s) song_name) l.

(** [next((p for p in playlists if p.name.lower() == playlist_name.lower()), None)] *)
Definition find_playlist (l : list Playlist.t) (playlist_name : string)
    : option Playlist.t :=
  List.find (fun p => Str.eq_nocase (Playlist.name p) playlist_name) l.

(** [json.load(file)] *)
Definition json_load (f : file) : res data_dict :=
  match f with
  | Json data => Ok data
  | Text _ err => Raise (JSONDecodeError err)
  end.

Definition load_data : M unit :=
  a ← get_self;
  files ← get_fs;
  match files !! data_file a with
  | None => mret tt
  | Some f =>
      try_except_decode_key
        (data ← lift (json_load f);
         song_dicts ← lift (subscript "songs" (dd_songs data));
         loaded_songs ← lift (comprehension Song.from_dict song_dicts);
         set_songs loaded_songs;;
         playlist_dicts ← lift (subscript "playlists" (dd_playlists data));
         loaded_playlists ← lift (comprehension Playlist.from_dict playlist_dicts);
         set_playlists loaded_playlists)
        (fun e => print ("Error loading data: " +:+ str_exn e))
  end.

(** [MusicApp.__init__] *)
Definition MusicApp_init (data_file_ : string) : M unit :=
  set_self {| data_file := data_file_; songs := []; playlists := [];
              undo_stack := [] |};;
  load_data.

Definition save_data : M unit :=
  a ← get_self;
  let data := {| dd_songs := Some (map Song.to_dict (songs a));
                 dd_playlists := Some (map Playlist.to_dict (playlists a)) |} in
  write_file (data_file a) (Json data).

Definition add_multiple_songs : M unit :=
  while_true (
    name ← get_valid_input "Enter the song name (or 'q' to stop): " false;
    if String.eqb (Str.lower name) "q" then mret (Some tt)
    else
      artists ← get_valid_input
        "Enter the artist name or enter multiple artists separated by a comma: "
        false;
      album ← get_valid_input "Enter the album name: " false;
      genre ← get_valid_input "Enter the genre: " false;
      duration ← get_valid_input "Enter the duration (e.g., mm:ss): " false;
      if negb (re.match_ prompt_duration_pattern duration) then
        print "Invalid duration format. Please enter in 'mm:ss' or 'hh:mm:ss' format.";;
        mret None
      else
        song ← lift (Song.init name artists album genre duration);
        a ← get_self;
        set_songs (songs a ++ [song]);;
        save_data;;
        print ("Song '" +:+ name +:+ "' added successfully.");;
        mret None).

Definition remove_song : M unit :=
  song_name ← get_valid_input "Enter the name of the song to remove: " false;
  a ← get_self;
  match find_song (songs a) song_name with
  | Some song =>
      yes ← confirm_action
        ("Are you sure you want to remove the song '" +:+ song_name +:+ "'?");
      if (yes : bool) then
        a ← get_self;
        set_undo_stack (undo_stack a ++ [("remove", song)]);;
        rest ← lift (list_remove song (songs a));
        set_songs rest;;
        set_playlists
          (map (fun playlist =>
                  {| Playlist.name := Playlist.name playlist;
                     Playlist.songs :=
                       List.filter
                         (fun s => negb (Str.eq_nocase (Song.name s) song_name))
                         (Playlist.songs playlist) |})
               (playlists a));;
        save_data;;
        print ("Song '" +:+ song_name +:+
               "' removed from library and all playlists.")
      else print "Action canceled."
  | None => print ("Song '" +:+ song_name +:+ "' not found in the library.")
  end.

Definition undo : M unit :=
  a ← get_self;
  match pop (undo_stack a) with
  | None => print "Nothing to undo."
  | Some ((action_type, song), rest) =>
      set_undo_stack rest;;
      if String.eqb action_type "remove" then
        a ← get_self;
        set_songs (songs a ++ [song]);;
        save_data;;
        print ("Undo: Song '" +:+ Song.name song +:+ "' has been restored.")
      else mret tt
  end.

Definition create_playlist : M unit :=
  name ← get_valid_input "Enter the playlist name: " false;
  a ← get_self;
  set_playlists (playlists a ++ [Playlist.init name]);;
  save_data;;
  print "Playlist created successfully.".

(** One line of the export: [f"{song.name} by {', '.join(song.artists)} ({song.duration})\n"] *)
Definition export_line (song : Song.t) : string :=
  Song.name song +:+ " by " +:+ Str.join ", " (Song.artists song) +:+
  " (" +:+ Song.duration song +:+ ")" +:+ nl.

(** What the [with open(file_name, 'w') as f] block of [export_playlist]
    writes, one [f.write] after the other. *)
Definition export_text (playlist : Playlist.t) : string :=
  let f := "Playlist: " +:+ Playlist.name playlist +:+ nl in
  match Playlist.songs playlist with
  | [] => f
  | _ :: _ =>
      let f := f +:+ "Songs:" +:+ nl in
      fold_left (fun f song => f +:+ export_line song) (Playlist.songs playlist) f
  end.

Definition export_playlist (playlist_name : option string) : M unit :=
  playlist_name ← match playlist_name with
                  | None => get_valid_input "Enter the playlist name to export: " false
                  | Some n => mret n
                  end;
  a ← get_self;
  match find_playlist (playlists a) playlist_name with
  | Some playlist =>
      let file_name := Str.replace " " "_" playlist_name +:+ ".txt" in
      write_file file_name
        (Text (export_text playlist) "Expecting value: line 1 column 1 (char 0)");;
      print ("Playlist '" +:+ playlist_name +:+ "' exported to '" +:+
             file_name +:+ "'")
  | None => print "Playlist not found."
  end.

Definition add_song_to_playlist : M unit :=
  song_name ← get_valid_input "Enter the song name: " false;
  playlist_name ← get_valid_input "Enter the playlist name: " false;
  a ← get_self;
  match find_song (songs a) song_name,
        find_playlist (playlists a) playlist_name with
  | Some song, Some _ =>
      set_playlists
        (update_first
           (fun p => Str.eq_nocase (Playlist.name p) playlist_name)
           (fun playlist => Playlist.add_song playlist song)
           (playlists a));;
      save_data;;
      print "Song added to playlist successfully."
  | _, _ => print "Song or playlist not found."
  end.

(** [[song for song in songs if search_term.lower() in song.name.lower()]] *)
Definition search_results (l : list Song.t) (search_term : string) : list Song.t :=
  List.filter
    (fun song => Str.contains (Str.lower search_term) (Str.lower (Song.name song)))
    l.

Definition search_songs : M unit :=
  search_term ← get_valid_input "Enter the search term: " false;
  a ← get_self;
  match search_results (songs a) search_term with
  | [] => print ("No matching songs found for '" +:+ search_term +:+ "'.")
  | results =>
      print "Search results:";;
      for_each results (fun song => print (Song.str song))
  end.

(** [print] of each of [l], in order. *)
Definition print_all (l : list string) : M unit := for_each l print.

Definition songs_menu : M unit :=
  while_true (
    print_all [nl +:+ "--- Songs Menu ---"; "1. Add New Song(s)";
               "2. Remove Song from Library"; "3. Undo Last Remove";
               "4. Back to Main Menu"];;
    choice ← input "Enter your choice: ";
    if String.eqb choice "1" then add_multiple_songs;; mret None
    else if String.eqb choice "2" then remove_song;; mret None
    else if String.eqb choice "3" then undo;; mret None
    else if String.eqb choice "4" then mret (Some tt)
    else print "Invalid choice. Please try again.";; mret None).

Definition playlists_menu : M unit :=
  while_true (
    print_all [nl +:+ "--- Playlists Menu ---"; "1. Create Playlist";
               "2. Add Song to Playlist"; "3. Export Playlist";
               "4. Back to Main Menu"];;
    choice ← input "Enter your choice: ";
    if String.eqb choice "1" then create_playlist;; mret None
    else if String.eqb choice "2" then add_song_to_playlist;; mret None
    else if String.eqb choice "3" then export_playlist None;; mret None
    else if String.eqb choice "4" then mret (Some tt)
    else print "Invalid choice. Please try again.";; mret None).

Definition main_menu : M unit :=
  while_true (
    print_all [nl +:+ "--- Music App Main Menu ---"; "1. Songs Menu";
               "2. Playlists Menu"; "3. Exit"];;
    choice ← input "Enter your choice: ";
    if String.eqb choice "1" then songs_menu;; mret None
    else if String.eqb choice "2" then playlists_menu;; mret None
    else if String.eqb choice "3" then
      save_data;; print "Exiting the app.";; mret (Some tt)
    else print "Invalid choice. Please try again.";; mret None).

(** [if __name__ == "__main__"]: the program. *)
Definition main : M unit :=
  MusicApp_init "music_data.json";;
  main_menu.

(** ** Notions the statements use *)

(** The strings [^\d+:[0-5]\d$] matches, written out: one or more digits,
    a colon, a digit from 0 to 5 and a digit; and, as [$] has it, at most
    one newline after them. *)
Definition duration_language (s : string) : Prop :=
  exists m c1 c2 tl,
    s = m +:+ String ":"%char (String c1 (String c2 tl)) /\
    m <> EmptyString /\
    Str.all Str.isdigit m = true /\
    Str.between 48 53 c1 = true /\
    Str.isdigit c2 = true /\
    (tl = EmptyString \/ tl = nl).



(** [keeps P m]: running [m] from a state in [P] ends in [P], whether it
    returns or raises. *)
Definition keeps {A} (P : world -> Prop) (m : M A) : Prop :=
  forall w r w', m w = (r, w') -> P w -> P w'.

(** [frame m]: [m] touches the console only, not the object nor the files. *)
Definition frame {A} (m : M A) : Prop :=
  forall w r w', m w = (r, w') -> self w' = self w /\ fs w' = fs w.

(** [reads m]: [m] never gives lines back to the input. *)
Definition reads {A} (m : M A) : Prop :=
  forall w r w', m w = (r, w') -> length (stdin w') <= length (stdin w).

(** [in_fuel m]: [m] never raises the model's [OutOfFuel]. *)
Definition in_fuel {A} (m : M A) : Prop :=
  forall w w', m w <> (Raise OutOfFuel, w').

(** A song, an object and a process to try the methods on. *)
Definition alpha : Song.t :=
  {| Song.name := "Alpha"; Song.artists := ["A1"; "A2"];
     Song.album := "Alb"; Song.genre := "Rock"; Song.duration := "3:30" |}.

Definition library (l : list Song.t) (ps : list Playlist.t)
    (u : list (string * Song.t)) : MusicApp :=
  {| data_file := "music_data.json"; songs := l; playlists := ps;
     undo_stack := u |}.

Definition process (a : MusicApp) (lines : list string) : world :=
  {| self := a; stdin := lines; stdout := []; fs := ∅ |}.

(** The songs and the playlists a file holds, as [load_data] reads them. *)
Definition read_songs (f : file) : res (list Song.t) :=
  data ← json_load f;
  song_dicts ← subscript "songs" (dd_songs data);
  comprehension Song.from_dict song_dicts.

Definition read_playlists (f : file) : res (list Playlist.t) :=
  data ← json_load f;
  playlist_dicts ← subscript "playlists" (dd_playlists data);
  comprehension Playlist.from_dict playlist_dicts.

(** The exceptions the [except] clause of [load_data] names. *)
Definition caught (e : exn) : bool :=
  match e with
  | JSONDecodeError _ | KeyError _ => true
  | _ => false
  end.

(** [in_library l song]: some song of [l] has the name of [song], whatever
    the case. *)
Definition in_library (l : list Song.t) (song : Song.t) : bool :=
  existsb (fun s => Str.eq_nocase (Song.name s) (Song.name song)) l.

(** No playlist holds a song the library lacks. *)
Definition consistent_with (l : list Song.t) (ps : list Playlist.t) : bool :=
  forallb (fun p => forallb (in_library l) (Playlist.songs p)) ps.

Definition consistent (a : MusicApp) : bool :=
  consistent_with (songs a) (playlists a).

(** The operations of the library store. *)
Inductive operation : Type :=
| AddSongs
| RemoveSong
| Undo
| CreatePlaylist
| AddSongToPlaylist.

Definition perform (op : operation) : M unit :=
  match op with
  | AddSongs => add_multiple_songs
  | RemoveSong => remove_song
  | Undo => undo
  | CreatePlaylist => create_playlist
  | AddSongToPlaylist => add_song_to_playlist
  end.

(** Every entry of the undo stack records a removal. *)
Definition removals_only (a : MusicApp) : Prop :=
  Forall (fun entry => fst entry = "remove") (undo_stack a).

(** The user types [lines] before the next operation. *)
Definition typed (lines : list string) (w : world) : world :=
  {| self := self w; stdin := lines; stdout := stdout w; fs := fs w |}.

(** The states of a program that starts in [start] and performs
    operations, the user typing what they like in between. *)
Inductive reachable (start : world -> Prop) : world -> Prop :=
| reach_start w : start w -> reachable start w
| reach_step op w r w' :
    reachable start w -> perform op w = (r, w') -> reachable start w'
| reach_typed lines w : reachable start w -> reachable start (typed lines w).

(** [started w]: [w] is where some [MusicApp(data_file)] has left the
    process; [started_fresh w]: and there was no data file to load. *)
Definition started (w' : world) : Prop :=
  exists data_file_ w r, MusicApp_init data_file_ w = (r, w').

Definition started_fresh (w' : world) : Prop :=
  exists data_file_ w r,
    fs w !! data_file_ = None /\ MusicApp_init data_file_ w = (r, w').

(** Playlist "P" holding Alpha, and a data file that has the songs and
    lacks the playlists. *)
Definition alpha_in_p : Playlist.t :=
  Playlist.add_song (Playlist.init "P") alpha.

Definition songs_only_file : file :=
  Json {| dd_songs := Some [Song.to_dict alpha]; dd_playlists := None |}.

(** * Properties *)

Example duration_3_30 : re.match_ duration_pattern "3:30" = true.
Proof. reflexivity. Qed.

Example duration_5_99 : re.match_ duration_pattern "5:99" = false.
Proof. reflexivity. Qed.

Example duration_abc : re.match_ duration_pattern "abc" = false.
Proof. reflexivity. Qed.

Example duration_empty : re.match_ duration_pattern "" = false.
Proof. reflexivity. Qed.

Example duration_newline : re.match_ duration_pattern ("3:30" +:+ nl) = true.
Proof. reflexivity. Qed.

Example split_commas :
  Str.split ","%char "a,,b , c" = ["a"; ""; "b "; " c"].
Proof. reflexivity. Qed.

Example strip_blanks : Str.strip "  Alpha Beta  " = "Alpha Beta".
Proof. reflexivity. Qed.

Example lower_alpha : Str.lower "ALPHA beta 1" = "alpha beta 1".
Proof. reflexivity. Qed.

Example contains_pha : Str.contains "pha" "alpha" = true.
Proof. reflexivity. Qed.

(** ** The matcher *)

Section Matcher.

Variable p : ascii -> bool.

Lemma many_complete k s1 : forall pos s2,
  Str.all p s1 = true ->
  k (pos + String.length s1) s2 = true ->
  re.many p pos (s1 +:+ s2) k = true.
Proof.
  induction s1 as [|c s1 IH]; intros pos s2 Hall Hk; simpl in *.
  - rewrite Nat.add_0_r in Hk. destruct s2; simpl; rewrite Hk; [reflexivity|].
    apply orb_true_r.
  - apply andb_true_iff in Hall as [Hc Hall]. rewrite Hc. simpl.
    rewrite IH; [reflexivity|assumption|].
    now replace (S pos + String.length s1) with (pos + S (String.length s1)) by lia.
Qed.

Lemma many_sound k s : forall pos,
  re.many p pos s k = true ->
  exists s1 s2, s = s1 +:+ s2 /\ Str.all p s1 = true /\
                k (pos + String.length s1) s2 = true.
Proof.
  induction s as [|c s IH]; intros pos H; simpl in H.
  - exists EmptyString, EmptyString. simpl. now rewrite Nat.add_0_r.
  - apply orb_true_iff in H as [H|H].
    + apply andb_true_iff in H as [Hc H].
      destruct (IH _ H) as (s1 & s2 & -> & Hall & Hk).
      exists (String c s1), s2. simpl. rewrite Hc, Hall.
      now replace (pos + S (String.length s1)) with (S pos + String.length s1) by lia.
    + exists EmptyString, (String c s). simpl. now rewrite Nat.add_0_r.
Qed.

End Matcher.

Lemma at_eol_spec s :
  re.at_eol s = true <-> s = EmptyString \/ s = nl.
Proof.
  destruct s as [|c [|c' s]]; simpl; split; intros H; try tauto.
  - apply Ascii.eqb_eq in H. subst. now right.
  - destruct H as [H|H]; [discriminate|]. injection H as ->. reflexivity.
  - discriminate.
  - destruct H as [H|H]; discriminate.
Qed.

Lemma append_cons c s t : String c s +:+ t = String c (s +:+ t).
Proof. reflexivity. Qed.


Lemma duration_pattern_spec s :
  re.match_ duration_pattern s = true <-> duration_language s.
Proof.
  unfold re.match_, duration_pattern, duration_language, re.lit, re.digit.
  cbn [re.run Nat.eqb andb]. split.
  - destruct s as [|c s]; [discriminate|]. intros H.
    apply andb_true_iff in H as [Hc H].
    apply many_sound in H as (s1 & s2 & -> & Hall & H).
    destruct s2 as [|colon [|c1 [|c2 tl]]];
      repeat (apply andb_true_iff in H as [? H]); try discriminate.
    match goal with E : Ascii.eqb _ _ = true |- _ =>
      apply Ascii.eqb_eq in E; subst colon end.
    exists (String c s1), c1, c2, tl. cbn [Str.all].
    rewrite Hc, Hall.
    repeat split; try assumption; try discriminate.
    now apply at_eol_spec.
  - intros (m & c1 & c2 & tl & -> & Hne & Hall & H1 & H2 & Htl).
    destruct m as [|c m]; [congruence|]. cbn [Str.all] in Hall.
    apply andb_true_iff in Hall as [Hc Hall]. rewrite append_cons, Hc.
    cbn [andb].
    apply many_complete; [assumption|]. cbn [re.run].
    rewrite H1, H2, Ascii.eqb_refl. cbn [andb]. rewrite andb_true_r.
    now apply at_eol_spec.
Qed.

(** ** Strings *)

Lemma truthy_spec s : Str.truthy s = true <-> s <> EmptyString.
Proof. destruct s; simpl; split; congruence. Qed.

















Lemma contains_empty s : Str.contains EmptyString s = true.
Proof. destruct s; reflexivity. Qed.

Lemma filter_all {A} (f : A -> bool) (l : list A) :
  (forall x, f x = true) -> List.filter f l = l.
Proof.
  intros H. induction l as [|x l IH]; simpl; [reflexivity|].
  now rewrite H, IH.
Qed.

(** ** Song *)





(** C4: with a non-empty name, a duration outside the language of
    [^\d+:[0-5]\d$] makes construction raise [ValueError] and no song comes
    out, as with "5:99", "abc" and the empty text; a duration inside it
    passes the check and the song is built. *)
Theorem song_init_duration name artists album genre duration :
  name <> EmptyString ->
  (~ duration_language duration ->
   Song.init name artists album genre duration =
   Raise (ValueError ("Invalid duration format: " +:+ duration +:+
                      ". Expected format 'mm:ss' or 'hh:mm:ss'."))) /\
  (duration_language duration ->
   re.match_ duration_pattern duration = true /\
   exists song, Song.init name artists album genre duration = Ok song) /\
  ~ duration_language "5:99" /\ ~ duration_language "abc" /\
  ~ duration_language "".
Proof.
  intros Hn. apply truthy_spec in Hn. repeat split.
  - intros Hd. unfold Song.init. rewrite Hn. cbn [negb].
    destruct (re.match_ duration_pattern duration) eqn:E; [|reflexivity].
    now apply duration_pattern_spec in E.
  - now apply duration_pattern_spec.
  - apply duration_pattern_spec in H. unfold Song.init. rewrite Hn, H.
    eexists. reflexivity.
  - intros H. now apply duration_pattern_spec in H.
  - intros H. now apply duration_pattern_spec in H.
  - intros H. now apply duration_pattern_spec in H.
Qed.

Lemma song_init_duration_witness :
  Song.init "Invalid Duration Song" "Artist X" "Album X" "Pop" "5:99" =
  Raise (ValueError
    "Invalid duration format: 5:99. Expected format 'mm:ss' or 'hh:mm:ss'.").
Proof.
  destruct (song_init_duration "Invalid Duration Song" "Artist X" "Album X"
              "Pop" "5:99") as (H & _ & H599 & _).
  - discriminate.
  - exact (H H599).
Defined.

(** C5, as the code has it: an empty name makes construction raise
    [ValueError], whatever the other fields are; the name is not trimmed. *)
Theorem song_init_empty_name artists album genre duration :
  Song.init EmptyString artists album genre duration =
  Raise (ValueError "Song name cannot be empty.").
Proof. reflexivity. Qed.

(** C5 fails as stated: a name of one space is empty once trimmed, and the
    song is built all the same. *)
Lemma song_init_blank_name :
  Str.strip " " = EmptyString /\
  Song.init " " "Artist X" "Album X" "Pop" "3:30" =
  Ok {| Song.name := " "; Song.artists := ["Artist X"];
        Song.album := "Album X"; Song.genre := "Pop";
        Song.duration := "3:30" |}.
Proof. split; reflexivity. Qed.

(** ** Search *)

(** C10: the empty search term keeps every song, in the order of the
    library: the empty text is found in every lowered name. *)
Theorem search_results_empty_term (l : list Song.t) :
  search_results l EmptyString = l /\
  forall song, Str.contains (Str.lower EmptyString) (Str.lower (Song.name song)) = true.
Proof.
  split.
  - unfold search_results. apply filter_all. intros x. apply contains_empty.
  - intros song. apply contains_empty.
Qed.

(** ** Export *)



(** ** Running a method step by step *)

Lemma bind_ok {A B} (m : M A) (f : A -> M B) w a w1 :
  m w = (Ok a, w1) -> (m ≫= f) w = f a w1.
Proof. intros H. unfold mbind, M_bind. now rewrite H. Qed.

Lemma bind_inv {A B} (m : M A) (f : A -> M B) w r w' :
  (m ≫= f) w = (r, w') ->
  (exists a w1, m w = (Ok a, w1) /\ f a w1 = (r, w')) \/
  (exists e, m w = (Raise e, w') /\ r = Raise e).
Proof.
  unfold mbind, M_bind. destruct (m w) as [[a|e] w1]; intros H.
  - left. eauto.
  - right. injection H as <- <-. eauto.
Qed.

Ltac run :=
  cbv [mbind mret M_bind M_ret get_self get_fs set_self set_songs
       set_playlists set_undo_stack write_file print lift raise save_data];
  cbn [self stdin stdout fs data_file songs playlists undo_stack].

Section Keeps.

Context {A B : Type}.
Variable P : world -> Prop.

Lemma keeps_ret (a : A) : keeps P (mret a).
Proof. intros w r w' H. injection H as <- <-. auto. Qed.

Lemma keeps_raise (e : exn) : keeps P (raise e : M A).
Proof. intros w r w' H. injection H as <- <-. auto. Qed.

Lemma keeps_lift (x : res A) : keeps P (lift x).
Proof. intros w r w' H. injection H as <- <-. auto. Qed.

Lemma keeps_bind (m : M A) (f : A -> M B) :
  keeps P m -> (forall a, keeps P (f a)) -> keeps P (m ≫= f).
Proof.
  intros Hm Hf w r w' H Hw.
  apply bind_inv in H as [(a & w1 & H1 & H2)|(e & H1 & _)].
  - eapply Hf; eauto.
  - eapply Hm; eauto.
Qed.

Lemma keeps_loop (body : M (option A)) n : keeps P body -> keeps P (loop n body).
Proof.
  intros Hb. induction n as [|n IH]; cbn [loop].
  - apply keeps_raise.
  - intros w r w' H Hw.
    apply bind_inv in H as [(a & w1 & H1 & H2)|(e & H1 & _)];
      [|eapply Hb; eauto].
    assert (P w1) by (eapply Hb; eauto).
    destruct a as [a|]; [injection H2 as <- <-; assumption|].
    eapply IH; eauto.
Qed.

Lemma keeps_while_true (body : M (option A)) :
  keeps P body -> keeps P (while_true body).
Proof. intros Hb w r w' H. unfold while_true in H. eapply keeps_loop; eauto. Qed.

End Keeps.

(** A property of the object and the files is kept by what touches the
    console only. *)
Lemma frame_keeps {A} (m : M A) (P : world -> Prop) :
  frame m ->
  (forall w w', self w' = self w -> fs w' = fs w -> P w -> P w') ->
  keeps P m.
Proof. intros Hm HP w r w' H. destruct (Hm _ _ _ H). now apply HP. Qed.

Lemma keeps_frame {A} (m : M A) :
  (forall a f, keeps (fun w => self w = a /\ fs w = f) m) -> frame m.
Proof. intros H w r w' E. exact (H _ _ _ _ _ E (conj eq_refl eq_refl)). Qed.

Lemma print_frame s : frame (print s).
Proof. intros w r w' H. injection H as <- <-. now split. Qed.

Lemma input_frame prompt : frame (input prompt).
Proof.
  intros w r w' H. unfold input in H.
  destruct (stdin w); injection H as <- <-; now split.
Qed.

Lemma get_valid_input_frame prompt allow_empty :
  frame (get_valid_input prompt allow_empty).
Proof.
  apply keeps_frame. intros a f. unfold get_valid_input.
  apply keeps_while_true, keeps_bind.
  - apply frame_keeps; [apply input_frame|]. intros ? ? -> ->. trivial.
  - intros line. destruct (_ || _); [apply keeps_ret|].
    apply keeps_bind; [|intros; apply keeps_ret].
    apply frame_keeps; [apply print_frame|]. intros ? ? -> ->. trivial.
Qed.

Lemma confirm_action_frame prompt : frame (confirm_action prompt).
Proof.
  apply keeps_frame. intros a f. unfold confirm_action.
  apply keeps_while_true, keeps_bind.
  - apply frame_keeps; [apply input_frame|]. intros ? ? -> ->. trivial.
  - intros line. destruct (_ || _); [apply keeps_ret|].
    apply keeps_bind; [|intros; apply keeps_ret].
    apply frame_keeps; [apply print_frame|]. intros ? ? -> ->. trivial.
Qed.

(** ** Undo *)

Lemma pop_nil {A} : pop ([] : list A) = None.
Proof. reflexivity. Qed.

Lemma pop_snoc {A} (l : list A) x : pop (l ++ [x]) = Some (x, l).
Proof. unfold pop. now rewrite last_snoc, removelast_last. Qed.

(** C2: in a state whose undo entries are removals, as the operations
    leave it: on an empty undo stack [undo] prints "Nothing to undo." and
    leaves the songs, the playlists, the stack and the files as they are;
    on a stack that is not empty it pops the last entry and appends its
    song to the songs, the playlists staying as they are. *)
Theorem undo_spec w :
  removals_only (self w) ->
  (undo_stack (self w) = [] ->
   undo w = (Ok tt, {| self := self w; stdin := stdin w;
                       stdout := stdout w ++ ["Nothing to undo." +:+ nl];
                       fs := fs w |})) /\
  (forall rest entry,
     undo_stack (self w) = rest ++ [entry] ->
     undo w =
     (Ok tt,
      {| self := {| data_file := data_file (self w);
                    songs := songs (self w) ++ [snd entry];
                    playlists := playlists (self w);
                    undo_stack := rest |};
         stdin := stdin w;
         stdout := stdout w ++
           [("Undo: Song '" +:+ Song.name (snd entry) +:+
             "' has been restored.") +:+ nl];
         fs := <[data_file (self w) :=
                   Json {| dd_songs :=
                             Some (map Song.to_dict
                                     (songs (self w) ++ [snd entry]));
                           dd_playlists :=
                             Some (map Playlist.to_dict (playlists (self w))) |}]>
                 (fs w) |})).
Proof.
  intros Hwf. split.
  - intros E. unfold undo. run. rewrite E, pop_nil. reflexivity.
  - intros rest [action_type song] E. unfold removals_only in Hwf.
    rewrite E in Hwf. apply List.Forall_app in Hwf as [_ Htop].
    inversion Htop as [|? ? Hkind _]. cbn [fst] in Hkind. subst action_type.
    unfold undo. run. rewrite E, pop_snoc. reflexivity.
Qed.

Lemma undo_spec_witness :
  self (snd (undo (process (library [] [Playlist.init "P"] [("remove", alpha)]) [])))
  = library [alpha] [Playlist.init "P"] [].
Proof.
  pose (w := process (library [] [Playlist.init "P"] [("remove", alpha)]) []).
  assert (removals_only (self w)) as Hwf
    by (constructor; [reflexivity|constructor]).
  destruct (undo_spec w Hwf) as [_ H]. fold w.
  rewrite (H [] ("remove", alpha) eq_refl). reflexivity.
Defined.

(** ** Lookups by name *)

Lemma eq_nocase_refl a : Str.eq_nocase a a = true.
Proof. apply String.eqb_refl. Qed.

Lemma eq_nocase_trans a b c :
  Str.eq_nocase a b = true -> Str.eq_nocase b c = true -> Str.eq_nocase a c = true.
Proof.
  unfold Str.eq_nocase. rewrite !String.eqb_eq. congruence.
Qed.

Lemma eq_nocase_sym a b : Str.eq_nocase a b = Str.eq_nocase b a.
Proof. apply String.eqb_sym. Qed.

Lemma find_first {A} (f : A -> bool) (l : list A) x :
  List.find f l = Some x ->
  exists before after,
    l = before ++ x :: after /\ List.find f before = None /\ f x = true.
Proof.
  induction l as [|y l IH]; simpl; [discriminate|].
  destruct (f y) eqn:E.
  - intros [= ->]. exists [], l. auto.
  - intros H. destruct (IH H) as (before & after & -> & Hb & Hx).
    exists (y :: before), after. simpl. rewrite E. auto.
Qed.

(** [self.songs.remove(song)] on the song the search has found takes out
    that very occurrence, and does not raise. *)
Lemma list_remove_found (l : list Song.t) song_name song before after :
  l = before ++ song :: after ->
  find_song before song_name = None ->
  Str.eq_nocase (Song.name song) song_name = true ->
  list_remove song l = Ok (before ++ after).
Proof.
  intros -> Hb Hs. unfold find_song in Hb.
  induction before as [|y before IH]; simpl in *.
  - destruct (decide (song = song)); [reflexivity|congruence].
  - destruct (Str.eq_nocase (Song.name y) song_name) eqn:E; [discriminate|].
    destruct (decide (y = song)) as [->|_]; [congruence|].
    now rewrite (IH Hb).
Qed.

(** [Playlist.remove_song] takes out every entry of that name, whatever
    the case, and keeps the others in their order. *)
Lemma playlist_remove_song_spec playlist song_name :
  Playlist.name (Playlist.remove_song playlist song_name) = Playlist.name playlist /\
  Playlist.songs (Playlist.remove_song playlist song_name) =
    List.filter (fun s => negb (Str.eq_nocase (Song.name s) song_name))
      (Playlist.songs playlist) /\
  Forall (fun s => Str.eq_nocase (Song.name s) song_name = false)
    (Playlist.songs (Playlist.remove_song playlist song_name)).
Proof.
  repeat split. cbn [Playlist.remove_song Playlist.songs].
  apply List.Forall_forall. intros s Hs. apply List.filter_In in Hs as [_ Hs].
  now apply negb_true_iff in Hs.
Qed.

(** ** Removing a song *)

(** C1, as the code has it: once the name has been read, [remove_song]
    looks for the first song of that name, whatever the case.  When there
    is one and the removal is confirmed at the prompt, an undo entry
    [("remove", song)] is pushed, that occurrence leaves the songs, every
    entry of that name leaves every playlist, the data is saved and success
    is printed.  When there is none, "not found" is printed and the object
    and the files stay as they are; so they do when there is one and the
    removal is not confirmed. *)
Theorem remove_song_spec w song_name w1 :
  get_valid_input "Enter the name of the song to remove: " false w
    = (Ok song_name, w1) ->
  let confirm :=
    confirm_action
      ("Are you sure you want to remove the song '" +:+ song_name +:+ "'?") in
  (forall song w2,
     find_song (songs (self w)) song_name = Some song ->
     confirm w1 = (Ok true, w2) ->
     exists before after,
       songs (self w) = before ++ song :: after /\
       find_song before song_name = None /\
       Str.eq_nocase (Song.name song) song_name = true /\
       remove_song w =
       (Ok tt,
        {| self := {| data_file := data_file (self w);
                      songs := before ++ after;
                      playlists :=
                        map (fun p => Playlist.remove_song p song_name)
                            (playlists (self w));
                      undo_stack := undo_stack (self w) ++ [("remove", song)] |};
           stdin := stdin w2;
           stdout := stdout w2 ++
             [("Song '" +:+ song_name +:+
               "' removed from library and all playlists.") +:+ nl];
           fs := <[data_file (self w) :=
                     Json {| dd_songs := Some (map Song.to_dict (before ++ after));
                             dd_playlists :=
                               Some (map Playlist.to_dict
                                       (map (fun p => Playlist.remove_song p song_name)
                                            (playlists (self w)))) |}]>
                   (fs w) |})) /\
  (find_song (songs (self w)) song_name = None ->
   remove_song w =
   (Ok tt,
    {| self := self w; stdin := stdin w1;
       stdout := stdout w1 ++
         [("Song '" +:+ song_name +:+ "' not found in the library.") +:+ nl];
       fs := fs w |})) /\
  (forall song w2,
     find_song (songs (self w)) song_name = Some song ->
     confirm w1 = (Ok false, w2) ->
     remove_song w =
     (Ok tt, {| self := self w; stdin := stdin w2;
                stdout := stdout w2 ++ ["Action canceled." +:+ nl];
                fs := fs w |})).
Proof.
  intros Hname confirm. subst confirm.
  destruct (get_valid_input_frame _ _ _ _ _ Hname) as [Hs1 Hf1].
  split; [|split].
  - intros song w2 Hfind Hyes.
    destruct (confirm_action_frame _ _ _ _ Hyes) as [Hs2 Hf2].
    destruct (find_first _ _ _ Hfind) as (before & after & Hl & Hb & Hx).
    exists before, after. repeat split; try assumption.
    unfold remove_song. rewrite (bind_ok _ _ _ _ _ Hname). run.
    rewrite Hs1, Hfind, Hyes. run.
    rewrite Hs2, Hs1, Hf2, Hf1.
    rewrite (list_remove_found _ _ _ _ _ Hl Hb Hx). reflexivity.
  - intros Hfind. unfold remove_song. rewrite (bind_ok _ _ _ _ _ Hname). run.
    rewrite Hs1, Hfind. run. rewrite Hs1, Hf1. reflexivity.
  - intros song w2 Hfind Hno.
    destruct (confirm_action_frame _ _ _ _ Hno) as [Hs2 Hf2].
    unfold remove_song. run. rewrite Hname, Hs1, Hfind, Hno. run.
    now rewrite Hs2, Hs1, Hf2, Hf1.
Qed.

Lemma remove_song_spec_witness :
  self (snd (remove_song (process (library [alpha] [alpha_in_p] []) ["ALPHA"; "y"])))
  = library [] [Playlist.init "P"] [("remove", alpha)].
Proof.
  pose (w := process (library [alpha] [alpha_in_p] []) ["ALPHA"; "y"]).
  pose (w1 := {| self := self w; stdin := ["y"];
                 stdout := ["Enter the name of the song to remove: "];
                 fs := fs w |}).
  pose (w2 := {| self := self w; stdin := [];
                 stdout := ["Enter the name of the song to remove: ";
                            "Are you sure you want to remove the song 'ALPHA'? (y/n): "];
                 fs := fs w |}).
  destruct (remove_song_spec w "ALPHA" w1 eq_refl) as [H _].
  destruct (H alpha w2 eq_refl eq_refl) as (before & after & Hl & _ & _ & Hrun).
  fold w. rewrite Hrun. cbn [snd self].
  destruct before as [|b before]; cbn in Hl.
  - injection Hl as <-. reflexivity.
  - injection Hl as _ Hl. destruct before; discriminate.
Defined.

(** C1 fails as stated: the song is found, the answer to the prompt is
    no, and nothing is pushed nor removed. *)
Lemma remove_song_not_confirmed :
  find_song [alpha] "Alpha" = Some alpha /\
  remove_song (process (library [alpha] [alpha_in_p] []) ["Alpha"; "n"]) =
  (Ok tt,
   {| self := library [alpha] [alpha_in_p] [];
      stdin := [];
      stdout := ["Enter the name of the song to remove: ";
                 "Are you sure you want to remove the song 'Alpha'? (y/n): ";
                 "Action canceled." +:+ nl];
      fs := ∅ |}).
Proof. split; vm_compute; reflexivity. Qed.

(** ** Adding a song to a playlist *)

Lemma update_first_found {A} (test : A -> bool) (f : A -> A) before x after :
  List.find test before = None -> test x = true ->
  update_first test f (before ++ x :: after) = before ++ f x :: after.
Proof.
  induction before as [|y before IH]; simpl; intros Hb Hx.
  - now rewrite Hx.
  - destruct (test y); [discriminate|]. now rewrite IH.
Qed.

(** C8: once both names have been read, [add_song_to_playlist] prints
    "not found" and changes neither the object nor the files when the song
    or the playlist has no match, whatever the case; when both have one,
    the song found goes to the end of the first playlist of that name,
    whether or not that playlist holds it already. *)
Theorem add_song_to_playlist_spec w song_name w1 playlist_name w2 :
  get_valid_input "Enter the song name: " false w = (Ok song_name, w1) ->
  get_valid_input "Enter the playlist name: " false w1 = (Ok playlist_name, w2) ->
  (find_song (songs (self w)) song_name = None \/
   find_playlist (playlists (self w)) playlist_name = None ->
   add_song_to_playlist w =
   (Ok tt, {| self := self w; stdin := stdin w2;
              stdout := stdout w2 ++ ["Song or playlist not found." +:+ nl];
              fs := fs w |})) /\
  (forall song playlist,
     find_song (songs (self w)) song_name = Some song ->
     find_playlist (playlists (self w)) playlist_name = Some playlist ->
     exists before after,
       playlists (self w) = before ++ playlist :: after /\
       find_playlist before playlist_name = None /\
       let playlists' :=
         before ++
         {| Playlist.name := Playlist.name playlist;
            Playlist.songs := Playlist.songs playlist ++ [song] |} :: after in
       add_song_to_playlist w =
       (Ok tt,
        {| self := {| data_file := data_file (self w);
                      songs := songs (self w);
                      playlists := playlists';
                      undo_stack := undo_stack (self w) |};
           stdin := stdin w2;
           stdout := stdout w2 ++ ["Song added to playlist successfully." +:+ nl];
           fs := <[data_file (self w) :=
                     Json {| dd_songs := Some (map Song.to_dict (songs (self w)));
                             dd_playlists :=
                               Some (map Playlist.to_dict playlists') |}]>
                   (fs w) |})).
Proof.
  intros Hsong Hplaylist.
  destruct (get_valid_input_frame _ _ _ _ _ Hsong) as [Hs1 Hf1].
  destruct (get_valid_input_frame _ _ _ _ _ Hplaylist) as [Hs2 Hf2].
  split.
  - intros Hnone. unfold add_song_to_playlist. run.
    rewrite Hsong, Hplaylist, Hs2, Hs1.
    destruct (find_song _ _) eqn:Es, (find_playlist _ _) eqn:Ep;
      destruct Hnone; try discriminate;
      run; rewrite Hs2, Hs1, Hf2, Hf1; reflexivity.
  - intros song playlist Hfs Hfp.
    destruct (find_first _ _ _ Hfp) as (before & after & Hl & Hb & Hx).
    exists before, after. repeat split; try assumption.
    unfold add_song_to_playlist. run.
    rewrite Hsong, Hplaylist, Hs2, Hs1, Hfs, Hfp. run.
    rewrite Hs2, Hs1, Hf2, Hf1, Hl.
    rewrite !update_first_found by assumption.
    reflexivity.
Qed.

Lemma add_song_to_playlist_spec_witness :
  self (snd (add_song_to_playlist
               (process (library [alpha] [alpha_in_p] []) ["alpha"; "p"])))
  = library [alpha]
      [{| Playlist.name := "P"; Playlist.songs := [alpha; alpha] |}] [].
Proof.
  pose (w := process (library [alpha] [alpha_in_p] []) ["alpha"; "p"]).
  pose (w1 := {| self := self w; stdin := ["p"];
                 stdout := ["Enter the song name: "]; fs := fs w |}).
  pose (w2 := {| self := self w; stdin := [];
                 stdout := ["Enter the song name: "; "Enter the playlist name: "];
                 fs := fs w |}).
  destruct (add_song_to_playlist_spec w "alpha" w1 "p" w2 eq_refl eq_refl)
    as [_ H].
  destruct (H alpha alpha_in_p eq_refl eq_refl)
    as (before & after & Hl & _ & Hrun).
  fold w. rewrite Hrun. cbn [snd self].
  destruct before as [|b before]; cbn in Hl.
  - injection Hl as <-. reflexivity.
  - injection Hl as _ Hl. destruct before; discriminate.
Defined.

(** ** Exporting a playlist *)







(** With no argument the name is asked for, and the export is the same. *)
Lemma export_playlist_prompted w playlist_name w1 :
  get_valid_input "Enter the playlist name to export: " false w
    = (Ok playlist_name, w1) ->
  export_playlist None w = export_playlist (Some playlist_name) w1.
Proof. intros H. unfold export_playlist. run. now rewrite H. Qed.

(** ** Loading *)

Lemma load_data_no_file w :
  fs w !! data_file (self w) = None -> load_data w = (Ok tt, w).
Proof. intros H. unfold load_data. run. now rewrite H. Qed.

(** C6, as the code has it: when the file is there and reading it raises
    [JSONDecodeError] or [KeyError], [load_data] prints the error and
    returns; the playlists are as before the load; the songs are as before
    the load when the error comes from the document or its songs, and are
    the songs of the file when it comes from the playlists. *)
Theorem load_data_soft_failure w f :
  fs w !! data_file (self w) = Some f ->
  (forall e,
     read_songs f = Raise e -> caught e = true ->
     load_data w =
     (Ok tt, {| self := self w; stdin := stdin w;
                stdout := stdout w ++ [("Error loading data: " +:+ str_exn e) +:+ nl];
                fs := fs w |})) /\
  (forall l e,
     read_songs f = Ok l -> read_playlists f = Raise e -> caught e = true ->
     load_data w =
     (Ok tt, {| self := {| data_file := data_file (self w);
                           songs := l;
                           playlists := playlists (self w);
                           undo_stack := undo_stack (self w) |};
                stdin := stdin w;
                stdout := stdout w ++ [("Error loading data: " +:+ str_exn e) +:+ nl];
                fs := fs w |})).
Proof.
  intros Hf. split.
  - intros e He Hc. unfold load_data, try_except_decode_key. run. rewrite Hf.
    unfold read_songs in He. destruct f as [data|text err]; cbn in He |- *.
    + destruct (dd_songs data) as [song_dicts|]; cbn in He |- *.
      * rewrite He. destruct e; try discriminate; reflexivity.
      * injection He as <-. reflexivity.
    + injection He as <-. reflexivity.
  - intros l e Hl He Hc. unfold load_data, try_except_decode_key. run. rewrite Hf.
    unfold read_songs in Hl. unfold read_playlists in He.
    destruct f as [data|text err]; cbn in Hl, He |- *; [|discriminate].
    destruct (dd_songs data) as [song_dicts|]; cbn in Hl |- *; [|discriminate].
    rewrite Hl. run.
    destruct (dd_playlists data) as [playlist_dicts|]; cbn in He |- *.
    + rewrite He. destruct e; try discriminate; reflexivity.
    + injection He as <-. reflexivity.
Qed.

Lemma load_data_soft_failure_witness :
  load_data {| self := library [] [] []; stdin := []; stdout := [];
               fs := {[ "music_data.json" := Text "not json" "Expecting value" ]} |}
  = (Ok tt, {| self := library [] [] []; stdin := [];
               stdout := ["Error loading data: Expecting value" +:+ nl];
               fs := {[ "music_data.json" := Text "not json" "Expecting value" ]} |}).
Proof.
  pose (w := {| self := library [] [] []; stdin := []; stdout := [];
                fs := {[ "music_data.json" := Text "not json" "Expecting value" ]} |}).
  destruct (load_data_soft_failure w (Text "not json" "Expecting value") eq_refl)
    as [H _].
  exact (H (JSONDecodeError "Expecting value") eq_refl eq_refl).
Defined.

(** C6 fails as stated: on a file that has its songs and lacks the
    "playlists" key, the error is reported and the songs are loaded. *)
Lemma load_data_partial :
  MusicApp_init "music_data.json"
    {| self := library [] [] []; stdin := []; stdout := [];
       fs := {[ "music_data.json" := songs_only_file ]} |}
  = (Ok tt, {| self := library [alpha] [] []; stdin := [];
               stdout := ["Error loading data: 'playlists'" +:+ nl];
               fs := {[ "music_data.json" := songs_only_file ]} |}).
Proof. vm_compute. reflexivity. Qed.

(** An exception outside the [except] clause goes through [load_data]. *)
Lemma load_data_uncaught w f e :
  fs w !! data_file (self w) = Some f ->
  read_songs f = Raise e -> caught e = false ->
  load_data w = (Raise e, w).
Proof.
  intros Hf He Hc. unfold load_data, try_except_decode_key. run. rewrite Hf.
  unfold read_songs in He. destruct f as [data|text err]; cbn in He |- *.
  - destruct (dd_songs data) as [song_dicts|]; cbn in He |- *.
    + rewrite He. destruct e; try discriminate; destruct w; reflexivity.
    + injection He as <-. discriminate.
  - injection He as <-. discriminate.
Qed.

(** ** The playlists hold songs of the library only *)

Lemma in_library_spec l song :
  in_library l song = true <->
  exists s, In s l /\ Str.eq_nocase (Song.name s) (Song.name song) = true.
Proof. unfold in_library. apply List.existsb_exists. Qed.

Lemma consistent_with_spec l ps :
  consistent_with l ps = true <->
  forall p song, In p ps -> In song (Playlist.songs p) -> in_library l song = true.
Proof.
  unfold consistent_with. rewrite List.forallb_forall. split.
  - intros H p song Hp Hs. specialize (H p Hp).
    rewrite List.forallb_forall in H. auto.
  - intros H p Hp. apply List.forallb_forall. eauto.
Qed.

Lemma in_library_more l l' song :
  (forall s, In s l -> In s l') -> in_library l song = true -> in_library l' song = true.
Proof.
  rewrite !in_library_spec. intros H (s & Hs & E). eauto.
Qed.

Lemma consistent_more_songs l l' ps :
  (forall s, In s l -> In s l') ->
  consistent_with l ps = true -> consistent_with l' ps = true.
Proof.
  rewrite !consistent_with_spec. intros Hl H p song Hp Hs.
  eapply in_library_more; eauto.
Qed.

Lemma consistent_new_playlist l ps name :
  consistent_with l ps = true ->
  consistent_with l (ps ++ [Playlist.init name]) = true.
Proof.
  rewrite !consistent_with_spec. intros H p song Hp Hs.
  apply List.in_app_or in Hp as [Hp|[<-|[]]]; [eauto|destruct Hs].
Qed.

Lemma find_song_in l song_name song :
  find_song l song_name = Some song ->
  In song l /\ Str.eq_nocase (Song.name song) song_name = true.
Proof. apply List.find_some. Qed.

Lemma consistent_add_to_playlist l ps song_name song playlist_name :
  find_song l song_name = Some song ->
  consistent_with l ps = true ->
  consistent_with l
    (update_first (fun p => Str.eq_nocase (Playlist.name p) playlist_name)
                  (fun playlist => Playlist.add_song playlist song) ps) = true.
Proof.
  intros Hfind. apply find_song_in in Hfind as [Hin _].
  unfold consistent_with. induction ps as [|p ps IH]; [trivial|].
  cbn [update_first forallb]. intros H. apply andb_true_iff in H as [Hp Hps].
  destruct (Str.eq_nocase (Playlist.name p) playlist_name).
  - cbn [forallb Playlist.add_song Playlist.songs]. rewrite Hps, andb_true_r.
    rewrite List.forallb_app, Hp. cbn [forallb]. rewrite andb_true_r.
    apply in_library_spec. exists song. split; [assumption|apply eq_nocase_refl].
  - cbn [forallb]. now rewrite Hp, IH.
Qed.

Lemma consistent_remove before song after ps song_name :
  Str.eq_nocase (Song.name song) song_name = true ->
  consistent_with (before ++ song :: after) ps = true ->
  consistent_with (before ++ after)
    (map (fun p => Playlist.remove_song p song_name) ps) = true.
Proof.
  intros Hx. rewrite !consistent_with_spec. intros H p s Hp Hs.
  apply List.in_map_iff in Hp as (p0 & <- & Hp0).
  cbn [Playlist.remove_song Playlist.songs] in Hs.
  apply List.filter_In in Hs as [Hs Hne]. apply negb_true_iff in Hne.
  specialize (H p0 s Hp0 Hs). apply in_library_spec in H as (s' & Hs' & E).
  apply in_library_spec. exists s'. split; [|assumption].
  apply List.in_app_or in Hs' as [Hs'|[<-|Hs']].
  - apply List.in_or_app. now left.
  - rewrite eq_nocase_sym in E.
    rewrite (eq_nocase_trans _ _ _ E Hx) in Hne. discriminate.
  - apply List.in_or_app. now right.
Qed.

(** ** What every operation keeps *)

Section Invariant.

(** A property of the object that each update of an operation keeps is
    kept by the operations, however the input goes. *)
Variable I : MusicApp -> Prop.

Hypothesis I_add_song : forall a song,
  I a ->
  I {| data_file := data_file a; songs := songs a ++ [song];
       playlists := playlists a; undo_stack := undo_stack a |}.

Hypothesis I_remove : forall a before song after song_name,
  songs a = before ++ song :: after ->
  Str.eq_nocase (Song.name song) song_name = true ->
  I a ->
  I {| data_file := data_file a; songs := before ++ after;
       playlists := map (fun p => Playlist.remove_song p song_name) (playlists a);
       undo_stack := undo_stack a ++ [("remove", song)] |}.

Hypothesis I_pop : forall a rest entry,
  undo_stack a = rest ++ [entry] ->
  I a ->
  I {| data_file := data_file a; songs := songs a;
       playlists := playlists a; undo_stack := rest |}.

Hypothesis I_new_playlist : forall a name,
  I a ->
  I {| data_file := data_file a; songs := songs a;
       playlists := playlists a ++ [Playlist.init name];
       undo_stack := undo_stack a |}.

Hypothesis I_add_to_playlist : forall a song_name song playlist_name,
  find_song (songs a) song_name = Some song ->
  I a ->
  I {| data_file := data_file a; songs := songs a;
       playlists :=
         update_first (fun p => Str.eq_nocase (Playlist.name p) playlist_name)
                      (fun playlist => Playlist.add_song playlist song)
                      (playlists a);
       undo_stack := undo_stack a |}.

Lemma frame_keeps_I {A} (m : M A) : frame m -> keeps (fun w => I (self w)) m.
Proof. intros H. apply frame_keeps; [exact H|]. now intros ? ? ->. Qed.

Lemma add_multiple_songs_keeps : keeps (fun w => I (self w)) add_multiple_songs.
Proof.
  unfold add_multiple_songs. apply keeps_while_true.
  apply keeps_bind; [apply frame_keeps_I, get_valid_input_frame|]. intros name.
  destruct (String.eqb _ _); [apply keeps_ret|].
  do 4 (apply keeps_bind; [apply frame_keeps_I, get_valid_input_frame|]; intros ?).
  destruct (negb _).
  - apply keeps_bind; [apply frame_keeps_I, print_frame|]. intros _.
    apply keeps_ret.
  - apply keeps_bind; [apply keeps_lift|]. intros song.
    intros w r w' H Hw. revert H. run. intros [= <- <-].
    cbn [self]. destruct (self w). now apply I_add_song.
Qed.

Lemma remove_song_keeps : keeps (fun w => I (self w)) remove_song.
Proof.
  intros w r w' H Hw. unfold remove_song in H.
  apply bind_inv in H as [(song_name & w1 & H1 & H)|(e & H1 & _)];
    [|exact (frame_keeps_I _ (get_valid_input_frame _ _) _ _ _ H1 Hw)].
  apply (frame_keeps_I _ (get_valid_input_frame _ _) _ _ _ H1) in Hw.
  clear H1 w. revert H. run.
  destruct (find_song (songs (self w1)) song_name) as [song|] eqn:Hfind.
  - destruct (confirm_action _ w1) as [[yes|e] w2] eqn:Hyes.
    + apply (frame_keeps_I _ (confirm_action_frame _) _ _ _ Hyes) in Hw.
      destruct yes; run.
      * destruct (find_first _ _ _ Hfind) as (before & after & Hl & Hb & Hx).
        destruct (confirm_action_frame _ _ _ _ Hyes) as [Hs2 _].
        rewrite Hs2.
        rewrite (list_remove_found _ _ _ _ _ Hl Hb Hx). run.
        intros [= <- <-]. cbn [self].
        rewrite <- Hs2 in *. now apply I_remove.
      * intros [= <- <-]. exact Hw.
    + intros [= <- <-].
      exact (frame_keeps_I _ (confirm_action_frame _) _ _ _ Hyes Hw).
  - intros [= <- <-]. exact Hw.
Qed.

Lemma undo_keeps : keeps (fun w => I (self w)) undo.
Proof.
  intros w r w' H Hw. revert H. unfold undo. run.
  destruct (undo_stack (self w)) as [|x l] eqn:E using rev_ind.
  - rewrite pop_nil. run. intros [= <- <-]. exact Hw.
  - clear IHl. rewrite pop_snoc. destruct x as [action_type song]. run.
    pose proof (I_pop _ _ _ E Hw) as Hpop.
    destruct (String.eqb action_type "remove"); intros [= <- <-];
      cbn [self]; [|exact Hpop].
    exact (I_add_song _ song Hpop).
Qed.

Lemma create_playlist_keeps : keeps (fun w => I (self w)) create_playlist.
Proof.
  unfold create_playlist.
  apply keeps_bind; [apply frame_keeps_I, get_valid_input_frame|]. intros name.
  intros w r w' H Hw. revert H. run. intros [= <- <-].
  cbn [self]. now apply I_new_playlist.
Qed.

Lemma add_song_to_playlist_keeps : keeps (fun w => I (self w)) add_song_to_playlist.
Proof.
  unfold add_song_to_playlist.
  do 2 (apply keeps_bind; [apply frame_keeps_I, get_valid_input_frame|]; intros ?).
  intros w r w' H Hw. revert H. run.
  destruct (find_song _ _) as [song|] eqn:Hs;
    [destruct (find_playlist _ _) as [playlist|]|]; run;
    intros [= <- <-]; try exact Hw.
  cbn [self]. eapply I_add_to_playlist; eauto.
Qed.

Lemma perform_keeps op : keeps (fun w => I (self w)) (perform op).
Proof.
  destruct op; cbn [perform].
  - apply add_multiple_songs_keeps.
  - apply remove_song_keeps.
  - apply undo_keeps.
  - apply create_playlist_keeps.
  - apply add_song_to_playlist_keeps.
Qed.

End Invariant.

Lemma consistent_kept op :
  keeps (fun w => consistent (self w) = true) (perform op).
Proof.
  apply (perform_keeps (fun a => consistent a = true)); unfold consistent;
    cbn [songs playlists].
  - intros a song. apply consistent_more_songs. intros s Hs.
    apply List.in_or_app. now left.
  - intros a before song after song_name -> Hx. now apply consistent_remove.
  - trivial.
  - intros a name. apply consistent_new_playlist.
  - intros a song_name song playlist_name. apply consistent_add_to_playlist.
Qed.

(** C7: each operation of the library store (adding songs, removing a
    song, undo, creating a playlist, adding a song to a playlist) that
    starts with every playlist entry named in the songs, whatever the case,
    ends so, however its input goes. *)
Theorem operations_keep_consistent op w r w' :
  perform op w = (r, w') ->
  consistent (self w) = true ->
  consistent (self w') = true.
Proof. apply consistent_kept. Qed.

Lemma operations_keep_consistent_witness :
  consistent
    (self (snd (perform RemoveSong
                  (process (library [alpha] [alpha_in_p] []) ["ALPHA"; "y"]))))
  = true.
Proof.
  pose (w := process (library [alpha] [alpha_in_p] []) ["ALPHA"; "y"]).
  apply (operations_keep_consistent RemoveSong w (fst (perform RemoveSong w))).
  - apply surjective_pairing.
  - reflexivity.
Defined.

(** A new object on no file is consistent, and its undo stack is empty. *)
Lemma init_consistent data_file_ w w' r :
  fs w !! data_file_ = None ->
  MusicApp_init data_file_ w = (r, w') ->
  r = Ok tt /\ consistent (self w') = true /\ undo_stack (self w') = [].
Proof.
  intros Hf. unfold MusicApp_init, load_data. run. rewrite Hf. run.
  intros [= <- <-]. repeat split.
Qed.

(** The operations push removals only on the undo stack. *)
Lemma removals_only_kept op :
  keeps (fun w => removals_only (self w)) (perform op).
Proof.
  apply (perform_keeps removals_only); unfold removals_only;
    cbn [undo_stack]; try (intros; assumption).
  - intros a before song after song_name _ _ H.
    apply List.Forall_app. split; [assumption|]. now constructor.
  - intros a rest entry -> H. now apply List.Forall_app in H as [H _].
Qed.

Lemma load_data_undo_stack w r w' :
  load_data w = (r, w') -> undo_stack (self w') = undo_stack (self w).
Proof.
  unfold load_data, try_except_decode_key. run.
  destruct (fs w !! data_file (self w)) as [f|]; [|now intros [= <- <-]].
  destruct f as [data|text err]; cbn; [|now intros [= <- <-]].
  destruct (dd_songs data) as [song_dicts|]; cbn; [|now intros [= <- <-]].
  destruct (comprehension Song.from_dict song_dicts) as [l|e]; cbn.
  - destruct (dd_playlists data) as [playlist_dicts|]; cbn;
      [|now intros [= <- <-]].
    destruct (comprehension Playlist.from_dict playlist_dicts) as [ps|e]; cbn;
      [now intros [= <- <-]|].
    destruct e; now intros [= <- <-].
  - destruct e; now intros [= <- <-].
Qed.

Section Reachable.

Variable start : world -> Prop.
Variable I : MusicApp -> Prop.
Hypothesis I_start : forall w, start w -> I (self w).
Hypothesis I_kept : forall op, keeps (fun w => I (self w)) (perform op).

Lemma reachable_keeps w : reachable start w -> I (self w).
Proof.
  induction 1 as [w Hw|op w r w' _ IH Hstep|lines w _ IH].
  - now apply I_start.
  - exact (I_kept op _ _ _ Hstep IH).
  - exact IH.
Qed.

End Reachable.

(** In a program that started on no data file, no playlist ever holds a
    song the library lacks. *)
Lemma reachable_consistent w :
  reachable started_fresh w -> consistent (self w) = true.
Proof.
  apply (reachable_keeps started_fresh (fun a => consistent a = true)).
  - intros w0 (data_file_ & w1 & r & Hf & Hinit).
    now destruct (init_consistent _ _ _ _ Hf Hinit) as (_ & H & _).
  - apply consistent_kept.
Qed.

(** In a running program the undo stack holds removals only: [undo]
    always finds one on top. *)
Lemma reachable_removals_only w :
  reachable started w -> removals_only (self w).
Proof.
  apply (reachable_keeps started removals_only).
  - intros w0 (data_file_ & w1 & r & Hinit). unfold removals_only.
    unfold MusicApp_init in Hinit.
    apply bind_inv in Hinit as [([] & w2 & H1 & H2)|(e & H1 & _)].
    + rewrite (load_data_undo_stack _ _ _ H2). injection H1 as <-. constructor.
    + discriminate.
  - apply removals_only_kept.
Qed.

(** ** The loops end *)

Lemma in_fuel_bind {A B} (m : M A) (f : A -> M B) :
  in_fuel m -> (forall a, in_fuel (f a)) -> in_fuel (m ≫= f).
Proof.
  intros Hm Hf w w' H.
  apply bind_inv in H as [(a & w1 & _ & H)|(e & H & [= <-])].
  - exact (Hf _ _ _ H).
  - exact (Hm _ _ H).
Qed.

Lemma in_fuel_ret {A} (a : A) : in_fuel (mret a).
Proof. intros w w' H. discriminate. Qed.

Lemma in_fuel_print s : in_fuel (print s).
Proof. intros w w' H. discriminate. Qed.

Lemma in_fuel_input prompt : in_fuel (input prompt).
Proof. intros w w' H. unfold input in H. destruct (stdin w); discriminate. Qed.

Lemma loop_in_fuel {A} (body : M (option A)) :
  (forall w w', body w = (Ok None, w') -> length (stdin w') < length (stdin w)) ->
  in_fuel body ->
  forall n w w', length (stdin w) < n -> loop n body w <> (Raise OutOfFuel, w').
Proof.
  intros Hstep Hbody. induction n as [|n IH]; intros w w' Hn; [lia|].
  cbn [loop]. unfold mbind, M_bind.
  destruct (body w) as [[[a|]|e] w1] eqn:E.
  - discriminate.
  - apply IH. specialize (Hstep _ _ E). lia.
  - intros [= -> ->]. exact (Hbody _ _ E).
Qed.

(** A [while True] loop whose every round reads a line before it goes
    round again ends within its fuel. *)
Lemma while_true_total {A} (body : M (option A)) :
  (forall w w', body w = (Ok None, w') -> length (stdin w') < length (stdin w)) ->
  in_fuel body ->
  in_fuel (while_true body).
Proof.
  intros Hstep Hbody w w'. unfold while_true. apply loop_in_fuel; auto.
Qed.

Lemma loop_consumes {A} (body : M (option A)) :
  (forall w o w', body w = (Ok o, w') -> length (stdin w') < length (stdin w)) ->
  forall n w a w', loop n body w = (Ok a, w') -> length (stdin w') < length (stdin w).
Proof.
  intros Hstep. induction n as [|n IH]; intros w a w' H; [discriminate|].
  cbn [loop] in H.
  apply bind_inv in H as [(o & w1 & H1 & H)|(e & _ & ?)]; [|discriminate].
  specialize (Hstep _ _ _ H1). destruct o as [a0|].
  - injection H as <- <-. assumption.
  - specialize (IH _ _ _ H). lia.
Qed.

Lemma input_consumes prompt w line w' :
  input prompt w = (Ok line, w') -> length (stdin w') < length (stdin w).
Proof.
  unfold input. destruct (stdin w) as [|l rest]; [discriminate|].
  intros [= <- <-]. cbn. lia.
Qed.

Lemma get_valid_input_consumes prompt allow_empty w a w' :
  get_valid_input prompt allow_empty w = (Ok a, w') ->
  length (stdin w') < length (stdin w).
Proof.
  unfold get_valid_input, while_true. apply loop_consumes. clear.
  intros w o w' H.
  apply bind_inv in H as [(line & w1 & H1 & H)|(e & _ & ?)]; [|discriminate].
  apply input_consumes in H1.
  destruct (_ || _); revert H; run; intros [= <- <-]; exact H1.
Qed.

Lemma get_valid_input_in_fuel prompt allow_empty :
  in_fuel (get_valid_input prompt allow_empty).
Proof.
  unfold get_valid_input. apply while_true_total.
  - intros w w' H.
    apply bind_inv in H as [(line & w1 & H1 & H)|(e & _ & ?)]; [|discriminate].
    apply input_consumes in H1.
    destruct (_ || _); revert H; run; intros [= <-]; exact H1.
  - apply in_fuel_bind; [apply in_fuel_input|]. intros line.
    destruct (_ || _); [apply in_fuel_ret|].
    apply in_fuel_bind; [apply in_fuel_print|]. intros; apply in_fuel_ret.
Qed.

Lemma confirm_action_in_fuel prompt : in_fuel (confirm_action prompt).
Proof.
  unfold confirm_action. apply while_true_total.
  - intros w w' H.
    apply bind_inv in H as [(line & w1 & H1 & H)|(e & _ & ?)]; [|discriminate].
    apply input_consumes in H1.
    destruct (_ || _); revert H; run; intros [= <-]; exact H1.
  - apply in_fuel_bind; [apply in_fuel_input|]. intros line.
    destruct (_ || _); [apply in_fuel_ret|].
    apply in_fuel_bind; [apply in_fuel_print|]. intros; apply in_fuel_ret.
Qed.

Lemma reads_keeps {A} (m : M A) :
  (forall k, keeps (fun w => length (stdin w) <= k) m) -> reads m.
Proof. intros H w r w' E. exact (H _ _ _ _ E (Nat.le_refl _)). Qed.

Lemma get_valid_input_reads prompt allow_empty :
  reads (get_valid_input prompt allow_empty).
Proof.
  apply reads_keeps. intros k. unfold get_valid_input.
  apply keeps_while_true, keeps_bind.
  - intros w r w' H Hk. unfold input in H.
    destruct (stdin w) as [|l rest]; injection H as <- <-; cbn in *; lia.
  - intros line. destruct (_ || _); [apply keeps_ret|].
    apply keeps_bind; [|intros; apply keeps_ret].
    intros w r w' H Hk. injection H as <- <-. exact Hk.
Qed.

Lemma song_init_in_fuel n a al g d : Song.init n a al g d <> Raise OutOfFuel.
Proof.
  unfold Song.init. destruct (negb _); [discriminate|].
  destruct (negb _); discriminate.
Qed.

Lemma add_multiple_songs_in_fuel : in_fuel add_multiple_songs.
Proof.
  unfold add_multiple_songs. apply while_true_total.
  - intros w w' H.
    apply bind_inv in H as [(name & w1 & H1 & H)|(e & _ & ?)]; [|discriminate].
    apply get_valid_input_consumes in H1.
    destruct (String.eqb _ _); [discriminate|].
    repeat (apply bind_inv in H as [(? & ? & ?%get_valid_input_reads & H)
                                   |(e & _ & ?)]; [|discriminate]).
    destruct (negb _).
    + revert H. run. intros [= <-]. cbn [stdin]. lia.
    + apply bind_inv in H as [(song & w6 & H6 & H)|(e & _ & ?)]; [|discriminate].
      injection H6 as _ <-. revert H. run. intros [= <-]. cbn [stdin]. lia.
  - apply in_fuel_bind; [apply get_valid_input_in_fuel|]. intros name.
    destruct (String.eqb _ _); [apply in_fuel_ret|].
    do 4 (apply in_fuel_bind; [apply get_valid_input_in_fuel|]; intros ?).
    destruct (negb _).
    + apply in_fuel_bind; [apply in_fuel_print|]. intros; apply in_fuel_ret.
    + apply in_fuel_bind.
      * intros w w' [= H _]. exact (song_init_in_fuel _ _ _ _ _ H).
      * intros song w w'. run. discriminate.
Qed.

(** No operation ever runs out of fuel: what the model returns or raises
    is what the program returns or raises. *)
Lemma perform_in_fuel op : in_fuel (perform op).
Proof.
  destruct op; cbn [perform].
  - apply add_multiple_songs_in_fuel.
  - unfold remove_song.
    apply in_fuel_bind; [apply get_valid_input_in_fuel|]. intros song_name.
    intros w w'. run. destruct (find_song _ _) as [song|]; [|discriminate].
    destruct (confirm_action _ w) as [[[|]|e] w2] eqn:E; run.
    + destruct (list_remove _ _) as [rest|e] eqn:El; run; [discriminate|].
      intros [= -> _]. revert El. clear.
      induction (songs (self w2)) as [|y l IH]; cbn; [discriminate|].
      destruct (decide (y = song)); [discriminate|].
      destruct (list_remove song l); [discriminate|]. cbn. intros [= ->]. auto.
    + discriminate.
    + intros [= -> ->]. exact (confirm_action_in_fuel _ _ _ E).
  - intros w w'. unfold undo. run.
    destruct (pop _) as [[[action_type song] rest]|]; run; [|discriminate].
    destruct (String.eqb _ _); discriminate.
  - unfold create_playlist.
    apply in_fuel_bind; [apply get_valid_input_in_fuel|]. intros name.
    intros w w'. run. discriminate.
  - unfold add_song_to_playlist.
    do 2 (apply in_fuel_bind; [apply get_valid_input_in_fuel|]; intros ?).
    intros w w'. run.
    destruct (find_song _ _); [destruct (find_playlist _ _)|]; discriminate.
Qed.

(** ** The scenario of the specification *)

(** Alpha is added, put in playlist P and removed: P is empty; after
    [undo] Alpha is in the songs again and P is still empty. *)
Example remove_then_undo :
  let w := process (library [] [] [])
             ["Alpha"; "A1, A2"; "Alb"; "Rock"; "3:30"; "q";
              "P"; "Alpha"; "P"; "Alpha"; "y"] in
  let program := add_multiple_songs;; create_playlist;; add_song_to_playlist;;
                 remove_song in
  self (snd (program w)) =
    library [] [Playlist.init "P"] [("remove", alpha)] /\
  self (snd ((program;; undo) w)) = library [alpha] [Playlist.init "P"] [].
Proof. split; vm_compute; reflexivity. Qed.

(** ** What the prompts give *)

Lemma loop_post {A} (body : M (option A)) (Q : A -> Prop) :
  (forall w a w', body w = (Ok (Some a), w') -> Q a) ->
  forall n w a w', loop n body w = (Ok a, w') -> Q a.
Proof.
  intros Hbody. induction n as [|n IH]; intros w a w' H; [discriminate|].
  cbn [loop] in H.
  apply bind_inv in H as [(o & w1 & H1 & H)|(e & _ & ?)]; [|discriminate].
  destruct o as [a0|].
  - injection H as <- <-. eauto.
  - eauto.
Qed.

(** The trimming is in the prompt: what [get_valid_input] returns is a
    trimmed line, and not the empty text unless that is allowed. *)
Lemma get_valid_input_stripped prompt w a w' :
  get_valid_input prompt false w = (Ok a, w') ->
  a <> EmptyString /\ exists line, a = Str.strip line.
Proof.
  unfold get_valid_input, while_true.
  apply (loop_post _ (fun a => a <> EmptyString /\ exists line, a = Str.strip line)).
  clear. intros w a w' H.
  apply bind_inv in H as [(line & w1 & _ & H)|(e & _ & ?)]; [|discriminate].
  rewrite orb_false_r in H. destruct (Str.truthy (Str.strip line)) eqn:E.
  - injection H as <- _. split; [now apply truthy_spec|]. now exists line.
  - revert H. run. discriminate.
Qed.

(** [search_songs] filters the songs by the term it has read, and prints
    what the filter keeps. *)
Lemma search_songs_spec w search_term w1 :
  get_valid_input "Enter the search term: " false w = (Ok search_term, w1) ->
  search_songs w =
  match search_results (songs (self w)) search_term with
  | [] => print ("No matching songs found for '" +:+ search_term +:+ "'.") w1
  | results =>
      (print "Search results:";;
       for_each results (fun song => print (Song.str song))) w1
  end.
Proof.
  intros H. destruct (get_valid_input_frame _ _ _ _ _ H) as [Hs _].
  unfold search_songs. rewrite (bind_ok _ _ _ _ _ H).
  change ((get_self ≫= ?f) w1) with (f (self w1) w1). cbv beta.
  rewrite Hs. destruct (search_results _ _); reflexivity.
Qed.

(** ** The whole program *)

Lemma keeps_for_each {A} (P : world -> Prop) (l : list A) (body : A -> M unit) :
  (forall x, keeps P (body x)) -> keeps P (for_each l body).
Proof.
  intros Hb. induction l as [|x l IH]; cbn [for_each].
  - apply keeps_ret.
  - apply keeps_bind; [apply Hb|intros _; exact IH].
Qed.

Lemma keeps_try {A} (P : world -> Prop) (body : M A) (handler : exn -> M A) :
  keeps P body -> (forall e, keeps P (handler e)) ->
  keeps P (try_except_decode_key body handler).
Proof.
  intros Hb Hh w r w' H Hw. unfold try_except_decode_key in H.
  destruct (body w) as [[a|e] w1] eqn:E.
  - injection H as <- <-. eapply Hb; eauto.
  - assert (P w1) by (eapply Hb; eauto).
    destruct e; try (injection H as <- <-; assumption); eapply Hh; eauto.
Qed.

(** Taking a method apart along its binds, loops and branches; [prim]
    settles the primitives. *)
Ltac keeps_structure prim :=
  repeat first
    [ prim
    | apply keeps_ret | apply keeps_raise | apply keeps_lift
    | apply keeps_while_true
    | apply keeps_for_each; intros ?
    | apply keeps_try; [|intros ?]
    | apply keeps_bind; [|intros ?]
    | match goal with
      | |- keeps _ (let _ := _ in _) => cbv zeta
      | |- keeps _ (if ?c then _ else _) => destruct c
      | |- keeps _ (match ?x with _ => _ end) => destruct x
      end ].

Section Reads.

Variable k : nat.

Lemma bound_input prompt : keeps (fun w => length (stdin w) <= k) (input prompt).
Proof.
  intros w r w' H Hk. unfold input in H.
  destruct (stdin w) as [|l rest]; injection H as <- <-; cbn in *; lia.
Qed.

Lemma bound_quiet {A} (m : M A) :
  (forall w r w', m w = (r, w') -> stdin w' = stdin w) ->
  keeps (fun w => length (stdin w) <= k) m.
Proof. intros Hm w r w' H Hk. now rewrite (Hm _ _ _ H). Qed.

End Reads.

Ltac bound_prim :=
  first [ apply bound_input
        | apply bound_quiet; intros ? ? ? [= <- <-]; reflexivity ].

Ltac reads_auto :=
  apply reads_keeps; intros ?;
  unfold set_songs, set_playlists, set_undo_stack, save_data, print_all;
  keeps_structure bound_prim.

Lemma confirm_action_reads prompt : reads (confirm_action prompt).
Proof. unfold confirm_action. reads_auto. Qed.

Lemma add_multiple_songs_reads : reads add_multiple_songs.
Proof. unfold add_multiple_songs, get_valid_input. reads_auto. Qed.

Lemma remove_song_reads : reads remove_song.
Proof. unfold remove_song, get_valid_input, confirm_action. reads_auto. Qed.

Lemma undo_reads : reads undo.
Proof. unfold undo. reads_auto. Qed.

Lemma create_playlist_reads : reads create_playlist.
Proof. unfold create_playlist, get_valid_input. reads_auto. Qed.

Lemma add_song_to_playlist_reads : reads add_song_to_playlist.
Proof. unfold add_song_to_playlist, get_valid_input. reads_auto. Qed.

Lemma export_playlist_reads arg : reads (export_playlist arg).
Proof. unfold export_playlist, get_valid_input. reads_auto. Qed.

Lemma search_songs_reads : reads search_songs.
Proof. unfold search_songs, get_valid_input. reads_auto. Qed.

Lemma load_data_reads : reads load_data.
Proof. unfold load_data. reads_auto. Qed.

Lemma print_all_reads l : reads (print_all l).
Proof. reads_auto. Qed.

Lemma reads_bound {A} (m : M A) k :
  reads m -> keeps (fun w => length (stdin w) <= k) m.
Proof. intros Hm w r w' H Hk. specialize (Hm _ _ _ H). lia. Qed.

Create HintDb reads.
#[local] Hint Resolve get_valid_input_reads confirm_action_reads
  add_multiple_songs_reads remove_song_reads undo_reads create_playlist_reads
  add_song_to_playlist_reads export_playlist_reads search_songs_reads
  load_data_reads print_all_reads : reads.

Ltac reads_known := apply reads_bound; solve [auto with reads].

Ltac menu_reads :=
  apply reads_keeps; intros ?;
  unfold save_data; keeps_structure ltac:(first [reads_known | bound_prim]).

Lemma songs_menu_reads : reads songs_menu.
Proof. unfold songs_menu. menu_reads. Qed.

Lemma playlists_menu_reads : reads playlists_menu.
Proof. unfold playlists_menu. menu_reads. Qed.

#[local] Hint Resolve songs_menu_reads playlists_menu_reads : reads.

Lemma main_menu_reads : reads main_menu.
Proof. unfold main_menu. menu_reads. Qed.

(** A round of a menu reads the choice: it ends with less input than it
    began with. *)
Lemma round_consumes {A} (pre : M unit) prompt (k : string -> M A) :
  reads pre -> (forall c, reads (k c)) ->
  forall w a w',
    (pre;; choice ← input prompt; k choice) w = (Ok a, w') ->
    length (stdin w') < length (stdin w).
Proof.
  intros Hpre Hk w a w' H.
  apply bind_inv in H as [([] & w1 & H1 & H)|(e & _ & ?)]; [|discriminate].
  apply bind_inv in H as [(c & w2 & H2 & H)|(e & _ & ?)]; [|discriminate].
  apply Hpre in H1. apply input_consumes in H2. apply Hk in H. lia.
Qed.

Lemma in_fuel_for_each {A} (l : list A) (body : A -> M unit) :
  (forall x, in_fuel (body x)) -> in_fuel (for_each l body).
Proof.
  intros Hb. induction l as [|x l IH]; cbn [for_each].
  - apply in_fuel_ret.
  - apply in_fuel_bind; [apply Hb|intros _; exact IH].
Qed.

Lemma export_playlist_in_fuel arg : in_fuel (export_playlist arg).
Proof.
  unfold export_playlist. apply in_fuel_bind.
  - destruct arg; [apply in_fuel_ret|apply get_valid_input_in_fuel].
  - intros name w w'. run. destruct (find_playlist _ _); discriminate.
Qed.

Lemma print_all_in_fuel l : in_fuel (print_all l).
Proof. apply in_fuel_for_each. intros x. apply in_fuel_print. Qed.

Ltac menu_in_fuel ops :=
  apply while_true_total;
  [ intros w w'; apply round_consumes;
    [ apply print_all_reads
    | intros c; apply reads_keeps; intros ?;
      keeps_structure ltac:(first [reads_known | bound_prim]) ]
  | apply in_fuel_bind; [apply print_all_in_fuel|intros _];
    apply in_fuel_bind; [apply in_fuel_input|intros choice];
    repeat match goal with
           | |- in_fuel (if ?c then _ else _) => destruct c
           end;
    repeat first [ ops | apply in_fuel_ret | apply in_fuel_print
                 | apply in_fuel_bind; [|intros ?] ] ].

Lemma songs_menu_in_fuel : in_fuel songs_menu.
Proof.
  unfold songs_menu.
  menu_in_fuel ltac:(first [ exact (perform_in_fuel AddSongs)
                           | exact (perform_in_fuel RemoveSong)
                           | exact (perform_in_fuel Undo) ]).
Qed.

Lemma playlists_menu_in_fuel : in_fuel playlists_menu.
Proof.
  unfold playlists_menu.
  menu_in_fuel ltac:(first [ exact (perform_in_fuel CreatePlaylist)
                           | exact (perform_in_fuel AddSongToPlaylist)
                           | apply export_playlist_in_fuel ]).
Qed.

Lemma save_data_in_fuel : in_fuel save_data.
Proof. intros w w'. unfold save_data. run. discriminate. Qed.

Lemma main_menu_in_fuel : in_fuel main_menu.
Proof.
  unfold main_menu.
  menu_in_fuel ltac:(first [ exact songs_menu_in_fuel
                           | exact playlists_menu_in_fuel
                           | exact save_data_in_fuel ]).
Qed.

Lemma load_data_in_fuel : in_fuel load_data.
Proof.
  intros w w'. unfold load_data, try_except_decode_key. run.
  destruct (fs w !! data_file (self w)) as [f|]; [|discriminate].
  destruct f as [data|text err]; cbn; [|discriminate].
  destruct (dd_songs data) as [song_dicts|]; cbn; [|discriminate].
  assert (forall d, Song.from_dict d <> Raise OutOfFuel) as Hsong.
  { intros [[n|] [a|] [al|] [g|] [d|]]; cbn; try discriminate.
    apply song_init_in_fuel. }
  assert (forall l, comprehension Song.from_dict l <> Raise OutOfFuel) as Hsongs.
  { induction l as [|d l IH]; cbn; [discriminate|].
    specialize (Hsong d). destruct (Song.from_dict d) as [s|e]; cbn; [|congruence].
    destruct (comprehension Song.from_dict l); cbn; congruence. }
  assert (forall l p, Playlist.add_all p l <> Raise OutOfFuel) as Hadd.
  { induction l as [|d l IH]; intros p; cbn; [discriminate|].
    specialize (Hsong d). destruct (Song.from_dict d) as [s|e]; cbn; [|congruence].
    apply IH. }
  assert (forall l, comprehension Playlist.from_dict l <> Raise OutOfFuel) as Hps.
  { induction l as [|d l IH]; cbn; [discriminate|].
    assert (Playlist.from_dict d <> Raise OutOfFuel) as Hd.
    { destruct d as [[n|] [l0|]]; cbn; try discriminate. apply Hadd. }
    destruct (Playlist.from_dict d) as [s|e]; cbn; [|congruence].
    destruct (comprehension Playlist.from_dict l); cbn; congruence. }
  specialize (Hsongs song_dicts).
  destruct (comprehension Song.from_dict song_dicts) as [l|e]; cbn.
  - destruct (dd_playlists data) as [playlist_dicts|]; cbn; [|discriminate].
    specialize (Hps playlist_dicts).
    destruct (comprehension Playlist.from_dict playlist_dicts) as [ps|e]; cbn;
      [discriminate|].
    destruct e; try discriminate; congruence.
  - destruct e; try discriminate; congruence.
Qed.

(** The program ends on every input: it never runs out of fuel. *)
Lemma main_in_fuel : in_fuel main.
Proof.
  unfold main, MusicApp_init.
  apply in_fuel_bind; [|intros _; apply main_menu_in_fuel].
  apply in_fuel_bind; [|intros _; apply load_data_in_fuel].
  intros w w'. discriminate.
Qed.

Lemma export_playlist_self arg w r w' :
  export_playlist arg w = (r, w') -> self w' = self w.
Proof.
  unfold export_playlist. intros H.
  apply bind_inv in H as [(name & w1 & H1 & H)|(e & H1 & _)].
  - assert (self w1 = self w) as <-.
    { destruct arg; [now injection H1 as _ <-|].
      now destruct (get_valid_input_frame _ _ _ _ _ H1). }
    revert H. run. destruct (find_playlist _ _); now intros [= <- <-].
  - destruct arg; [discriminate|].
    now destruct (get_valid_input_frame _ _ _ _ _ H1).
Qed.

Section Program.

(** What the operations keep, a session at the menus keeps. *)
Variable I : MusicApp -> Prop.
Hypothesis I_kept : forall op, keeps (fun w => I (self w)) (perform op).

Lemma self_kept {A} (m : M A) :
  (forall w r w', m w = (r, w') -> self w' = self w) ->
  keeps (fun w => I (self w)) m.
Proof. intros Hm w r w' H Hw. now rewrite (Hm _ _ _ H). Qed.

Ltac session_prim :=
  first [ exact (I_kept AddSongs) | exact (I_kept RemoveSong)
        | exact (I_kept Undo) | exact (I_kept CreatePlaylist)
        | exact (I_kept AddSongToPlaylist)
        | apply self_kept; apply export_playlist_self
        | apply self_kept; intros ? ? ?; apply input_frame
        | apply self_kept; intros ? ? ? [= <- <-]; reflexivity ].

Lemma songs_menu_keeps : keeps (fun w => I (self w)) songs_menu.
Proof. unfold songs_menu, print_all. keeps_structure session_prim. Qed.

Lemma playlists_menu_keeps : keeps (fun w => I (self w)) playlists_menu.
Proof. unfold playlists_menu, print_all. keeps_structure session_prim. Qed.

Lemma main_menu_keeps : keeps (fun w => I (self w)) main_menu.
Proof.
  unfold main_menu, print_all.
  keeps_structure ltac:(first [ exact songs_menu_keeps
                              | exact playlists_menu_keeps
                              | session_prim ]).
Qed.

End Program.

(** However a session goes, and whether it ends or breaks off, the undo
    stack holds removals only. *)
Lemma main_removals_only w r w' :
  main w = (r, w') -> removals_only (self w').
Proof.
  unfold main. intros H.
  apply bind_inv in H as [([] & w1 & H1 & H)|(e & H1 & _)].
  - apply (main_menu_keeps removals_only removals_only_kept _ _ _ H).
    apply reachable_removals_only, reach_start. now exists "music_data.json", w, (Ok tt).
  - apply reachable_removals_only, reach_start.
    now exists "music_data.json", w, (Raise e).
Qed.

(** Started on no data file, a session ends with every playlist entry
    named in the songs. *)
Lemma main_consistent w r w' :
  fs w !! "music_data.json" = None ->
  main w = (r, w') -> consistent (self w') = true.
Proof.
  unfold main. intros Hf H.
  apply bind_inv in H as [([] & w1 & H1 & H)|(e & H1 & _)].
  - apply (main_menu_keeps (fun a => consistent a = true) consistent_kept _ _ _ H).
    now destruct (init_consistent _ _ _ _ Hf H1) as (_ & Hc & _).
  - now destruct (init_consistent _ _ _ _ Hf H1) as (_ & Hc & _).
Qed.
